(** * Commit-log replay: a model of db/commitlog/commitlog_replayer.cc

    The development follows the source file top to bottom: the data the
    replayer handles, the watermark computation of [impl::init], the
    per-entry decision of [impl::process], the per-segment driver
    [impl::recover] and the serial per-shard loop of
    [commitlog_replayer::recover].  Hash maps are finite maps, the sharded
    services are maps indexed by cpu, exceptions and failed futures are an
    explicit result type, and the effects on the outside world (mutations
    applied, cross-shard calls, segment reads) are recorded in a trace. *)

From stdpp Require Import base numbers option list strings gmap fin_maps gmultiset.

Set Default Proof Using "Type".
Local Open Scope N_scope.

(** ** Positions *)

(** Modelled from the spec: [replay_position] is declared in
    replay_position.hh, which is not among the sources.  It is the pair
    (segment id, offset) ordered lexicographically, carrying the shard that
    wrote it; the shard takes no part in the order, and the default
    position is (0, 0). *)
Record replay_position := mk_rp {
  rp_shard : N;
  rp_id : N;
  rp_pos : N
}.

Definition shard_id (p : replay_position) : N := rp_shard p.

Definition replay_position0 : replay_position := mk_rp 0 0 0.

Definition rp_lt (a b : replay_position) : bool :=
  if rp_id a <? rp_id b then true
  else if rp_id b <? rp_id a then false
  else rp_pos a <? rp_pos b.

Definition rp_le (a b : replay_position) : bool := negb (rp_lt b a).

(** [std::max(a, b)] is [(a < b) ? b : a]. *)
Definition rp_max (a b : replay_position) : replay_position :=
  if rp_lt a b then b else a.

(** ** Identifiers, entries and tables *)

Definition UUID := N.
Definition table_schema_version := N.
Definition column_mapping := N.

Record frozen_mutation := mk_fm {
  column_family_id : UUID;
  schema_version : table_schema_version;
  fm_key : N;
  fm_partition : N
}.

(** What [commitlog_entry_reader] extracts from a buffer. *)
Record commitlog_entry := mk_entry {
  mutation : frozen_mutation;
  get_column_mapping : option column_mapping
}.

Inductive exception :=
  | no_such_column_family (uuid : UUID)
  | out_of_range
  | runtime_error
  | malformed_entry
  | assertion_failure
  | invalid_segment_name
  | segment_data_corruption_error (bytes : N)
  | other_error (code : N).

(** A thrown exception or a failed future, against a value or a ready
    future. *)
Inductive result (A : Type) :=
  | Ok (a : A)
  | Throw (e : exception).
Arguments Ok {A} a.
Arguments Throw {A} e.

(** A buffer is represented by what deserialising it gives; [None] when
    the constructor of [commitlog_entry_reader] throws. *)
Definition temporary_buffer := option commitlog_entry.

(** The two ways [process] hands a mutation to a table. *)
Inductive apply_request :=
  | apply_direct (fm : frozen_mutation)
  | apply_converted (cm : column_mapping) (fm : frozen_mutation).

Record sstable := mk_sstable {
  (* [get_stats_metadata().position]; [None] when reading it throws *)
  sst_position : option replay_position
}.

Record column_family := mk_cf {
  cf_version : table_schema_version;
  get_sstables : list sstable;
  (* how building and applying the mutation ends *)
  cf_apply : apply_request → result unit
}.

(** Modelled from the spec: [database] is declared in database.hh, which is
    not among the sources.  Looking up a table that is not in the catalogue
    raises [no_such_column_family] (the spec's NoSuchTable, and the exception
    [process] names in its handler), and routing is a pure function of the
    partition key, the partitioner's hash modulo the number of shards, which
    the spec gives no way to fail. *)
Record database := mk_db {
  get_column_families : gmap UUID column_family;
  partitioner_shard : N → N
}.

Definition find_column_family (d : database) (uuid : UUID) : result column_family :=
  match get_column_families d !! uuid with
  | Some cf => Ok cf
  | None => Throw (no_such_column_family uuid)
  end.

Definition shard_of (d : database) (fm : frozen_mutation) : result N :=
  Ok (partitioner_shard d (fm_key fm)).

(** ** Statistics *)

Definition u64 (x : N) : N := x mod 2 ^ 64.

Record stats := mk_stats {
  invalid_mutations : N;
  skipped_mutations : N;
  applied_mutations : N;
  corrupt_bytes : N
}.

Definition stats0 : stats := mk_stats 0 0 0 0.

Definition stats_add (a b : stats) : stats :=
  {| invalid_mutations := u64 (invalid_mutations a + invalid_mutations b);
     skipped_mutations := u64 (skipped_mutations a + skipped_mutations b);
     applied_mutations := u64 (applied_mutations a + applied_mutations b);
     corrupt_bytes := u64 (corrupt_bytes a + corrupt_bytes b) |}.

Definition incr_invalid (s : stats) : stats :=
  {| invalid_mutations := u64 (invalid_mutations s + 1);
     skipped_mutations := skipped_mutations s;
     applied_mutations := applied_mutations s;
     corrupt_bytes := corrupt_bytes s |}.

Definition incr_skipped (s : stats) : stats :=
  {| invalid_mutations := invalid_mutations s;
     skipped_mutations := u64 (skipped_mutations s + 1);
     applied_mutations := applied_mutations s;
     corrupt_bytes := corrupt_bytes s |}.

Definition incr_applied (s : stats) : stats :=
  {| invalid_mutations := invalid_mutations s;
     skipped_mutations := skipped_mutations s;
     applied_mutations := u64 (applied_mutations s + 1);
     corrupt_bytes := corrupt_bytes s |}.

Definition add_corrupt (s : stats) (bytes : N) : stats :=
  {| invalid_mutations := invalid_mutations s;
     skipped_mutations := skipped_mutations s;
     applied_mutations := applied_mutations s;
     corrupt_bytes := u64 (corrupt_bytes s + bytes) |}.

(** ** The replayer and its surroundings *)

Abbreviation rp_map := (gmap UUID replay_position).
Abbreviation shard_rpm_map := (gmap N (gmap UUID replay_position)).
Abbreviation shard_rp_map := (gmap N replay_position).

Record impl := mk_impl {
  _rpm : shard_rpm_map;
  _min_pos : shard_rp_map
}.

(** What a call of [read_log_file] delivers: the framed entries in file
    order, then a clean end or the exception the stream ends with. *)
Record segment_read := mk_read {
  sr_entries : list (temporary_buffer * replay_position);
  sr_end : option exception
}.

Record environment := mk_env {
  smp_count : nat;
  (* [_qp.db()], one database per cpu *)
  sharded_db : N → database;
  (* [db::system_keyspace::get_truncated_position] *)
  get_truncated_position : UUID → list replay_position;
  (* [commitlog::descriptor], converted to a position with offset 0 *)
  descriptor : string → result replay_position;
  (* [db::commitlog::read_log_file], by file and start offset *)
  read_log_file : string → N → segment_read
}.

(** Iterating a hash map visits each binding once. *)
Definition for_each {A S : Type} (m : gmap N A) (body : S → N → A → S) (init : S) : S :=
  foldl (λ acc kv, body acc kv.1 kv.2) init (map_to_list m).

(** ** [impl::init] *)

(** [map[s][uuid]], default-constructed when absent. *)
Definition rpm_at (m : shard_rpm_map) (s : N) (uuid : UUID) : replay_position :=
  default replay_position0 (default ∅ (m !! s) !! uuid).

(** [auto& pp = map[s][uuid]; pp = std::max(pp, p);] *)
Definition rpm_raise (m : shard_rpm_map) (s : N) (uuid : UUID) (p : replay_position)
    : shard_rpm_map :=
  <[s := <[uuid := rp_max (rpm_at m s uuid) p]> (default ∅ (m !! s))]> m.

(** The body of the reducer's inner loop (lines 135-141). *)
Definition reduce_step (r : impl) (s : N) (uuid : UUID) (p : replay_position) : impl :=
  {| _rpm := rpm_raise (_rpm r) s uuid p;
     _min_pos :=
       match _min_pos r !! s with
       | None => <[s := p]> (_min_pos r)
       | Some q => if rp_lt p q then <[s := p]> (_min_pos r) else _min_pos r
       end |}.

Definition reducer (r : impl) (map : shard_rpm_map) : impl :=
  for_each map (λ r s m, for_each m (λ r uuid p, reduce_step r s uuid p) r) r.

(** The mapper's work for one column family on one cpu (lines 147-169). *)
Definition mapper_sstable (uuid : UUID) (map : shard_rpm_map) (sst : sstable)
    : shard_rpm_map :=
  match sst_position sst with
  | Some p => rpm_raise map (shard_id p) uuid p
  | None => map
  end.

Definition mapper_cf (E : environment) (map : shard_rpm_map) (uuid : UUID)
    (cf : column_family) : shard_rpm_map :=
  let map1 := foldl (mapper_sstable uuid) map (get_sstables cf) in
  foldl (λ map p, rpm_raise map (shard_id p) uuid p) map1 (get_truncated_position E uuid).

Definition mapper (E : environment) (cpu : N) : shard_rpm_map :=
  for_each (get_column_families (sharded_db E cpu)) (mapper_cf E) ∅.

Definition all_cpus (E : environment) : list N := N.of_nat <$> seq 0 (smp_count E).

(** The state of the replayer once the map-reduce has finished. *)
Definition init_map_reduce (E : environment) : impl :=
  foldl (λ r cpu, reducer r (mapper E cpu)) (mk_impl ∅ ∅) (all_cpus E).

(** Lines 188-190: [if (!p1.second.count(uuid)) _min_pos[p1.first] =
    replay_position();] *)
Definition reset_if_missing (uuid : UUID) (mp : shard_rp_map) (s : N) (m : rp_map)
    : shard_rp_map :=
  match m !! uuid with
  | None => <[s := replay_position0]> mp
  | Some _ => mp
  end.

(** The [finally] block (lines 186-192), run on cpu [cpu]. *)
Definition init_finally (E : environment) (cpu : N) (r : impl) : impl :=
  {| _rpm := _rpm r;
     _min_pos :=
       for_each (get_column_families (sharded_db E cpu))
         (λ mp uuid _, for_each (_rpm r) (reset_if_missing uuid) mp)
         (_min_pos r) |}.

Definition init (E : environment) (cpu : N) : impl :=
  init_finally E cpu (init_map_reduce E).

(** ** The world [process] acts on *)

(** The per-cpu [column_mappings] service, and a trace of what replay does
    to its surroundings: mutations applied to tables (with the cpu they
    were applied on), cross-shard calls issued with [invoke_on], and calls
    of [read_log_file]. *)
Record world := mk_world {
  column_mappings : gmap N (gmap table_schema_version column_mapping);
  applied : list (N * apply_request);
  invoked : list (N * commitlog_entry);
  reads : list (string * N)
}.

Definition local_is_initialized (w : world) (cpu : N) : bool :=
  bool_decide (is_Some (column_mappings w !! cpu)).

(** [_column_mappings.local().map] *)
Definition local_cm (w : world) (cpu : N) : gmap table_schema_version column_mapping :=
  default ∅ (column_mappings w !! cpu).

Definition emplace_cm (w : world) (cpu : N) (v : table_schema_version)
    (cm : column_mapping) : world :=
  {| column_mappings := <[cpu := <[v := cm]> (local_cm w cpu)]> (column_mappings w);
     applied := applied w; invoked := invoked w; reads := reads w |}.

Definition record_apply (w : world) (cpu : N) (a : apply_request) : world :=
  {| column_mappings := column_mappings w;
     applied := applied w ++ [(cpu, a)]; invoked := invoked w; reads := reads w |}.

Definition record_invoke (w : world) (cpu : N) (cer : commitlog_entry) : world :=
  {| column_mappings := column_mappings w;
     applied := applied w; invoked := invoked w ++ [(cpu, cer)]; reads := reads w |}.

Definition record_read (w : world) (file : string) (p : N) : world :=
  {| column_mappings := column_mappings w;
     applied := applied w; invoked := invoked w; reads := reads w ++ [(file, p)] |}.

(** [_column_mappings.start()]: a fresh, empty table on every cpu. *)
Definition start (E : environment) (w : world) : world :=
  {| column_mappings := list_to_map ((λ cpu, (cpu, ∅)) <$> all_cpus E);
     applied := applied w; invoked := invoked w; reads := reads w |}.

(** ** [impl::process] *)

Definition commitlog_entry_reader (buf : temporary_buffer) : result commitlog_entry :=
  match buf with
  | Some cer => Ok cer
  | None => Throw malformed_entry
  end.

(** Lines 246-255: the mapping the entry was written under, learning it
    from the entry when the version is new to this cpu. *)
Definition source_mapping (w : world) (cpu : N) (cer : commitlog_entry)
    : result (column_mapping * world) :=
  let v := schema_version (mutation cer) in
  match local_cm w cpu !! v with
  | Some cm => Ok (cm, w)
  | None =>
      match get_column_mapping cer with
      | None => Throw runtime_error
      | Some cm => Ok (cm, emplace_cm w cpu v cm)
      end
  end.

(** Lines 264-267: [i != map.end() && rp <= i->second]. *)
Definition already_flushed (map : rp_map) (uuid : UUID) (rp : replay_position) : bool :=
  match map !! uuid with
  | Some tp => rp_le rp tp
  | None => false
  end.

(** Lines 274-305: the function run on the owning shard. *)
Definition apply_on_shard (E : environment) (shard : N) (cer : commitlog_entry)
    (src_cm : column_mapping) (s : stats) (w : world) : result unit * stats * world :=
  let fm := mutation cer in
  match find_column_family (sharded_db E shard) (column_family_id fm) with
  | Throw e => (Throw e, s, w)
  | Ok cf =>
      if negb (cf_version cf =? schema_version fm) then
        let found := local_cm w shard !! schema_version fm in
        let w1 := match found with
                  | Some _ => w
                  | None => emplace_cm w shard (schema_version fm) src_cm
                  end in
        let cm := default src_cm found in
        match cf_apply cf (apply_converted cm fm) with
        | Ok _ => (Ok tt, incr_applied s, record_apply w1 shard (apply_converted cm fm))
        | Throw e => (Throw e, s, w1)
        end
      else
        match cf_apply cf (apply_direct fm) with
        | Ok _ => (Ok tt, incr_applied s, record_apply w shard (apply_direct fm))
        | Throw e => (Throw e, s, w)
        end
  end.

(** Lines 274-310: [invoke_on(shard, ...).handle_exception(...)]. *)
Definition dispatch (E : environment) (shard : N) (cer : commitlog_entry)
    (src_cm : column_mapping) (s : stats) (w : world) : result unit * stats * world :=
  match apply_on_shard E shard cer src_cm s (record_invoke w shard cer) with
  | (Ok _, s', w') => (Ok tt, s', w')
  | (Throw _, s', w') => (Ok tt, incr_invalid s', w')
  end.

(** Lines 311-317: the handlers of the [try] block. *)
Definition catch_sync (e : exception) (s : stats) : stats :=
  match e with
  | no_such_column_family _ => s
  | _ => incr_invalid s
  end.

Definition process (E : environment) (r : impl) (cpu : N) (s : stats) (w : world)
    (buf : temporary_buffer) (rp : replay_position) : result unit * stats * world :=
  match commitlog_entry_reader buf with
  | Throw e => (Ok tt, catch_sync e s, w)
  | Ok cer =>
      let fm := mutation cer in
      match source_mapping w cpu cer with
      | Throw e => (Ok tt, catch_sync e s, w)
      | Ok (src_cm, w1) =>
          match _min_pos r !! shard_id rp with
          | None => (Ok tt, catch_sync out_of_range s, w1)
          | Some gp =>
              if rp_lt rp gp then (Ok tt, incr_skipped s, w1)
              else
                match _rpm r !! shard_id rp with
                | None => (Ok tt, catch_sync out_of_range s, w1)
                | Some map =>
                    if already_flushed map (column_family_id fm) rp
                    then (Ok tt, incr_skipped s, w1)
                    else
                      match shard_of (sharded_db E cpu) fm with
                      | Throw e => (Ok tt, catch_sync e s, w1)
                      | Ok shard => dispatch E shard cer src_cm s w1
                      end
                end
          end
      end
  end.

(** ** [impl::recover] *)

(** The subscription of [read_log_file]: entries are handed to [process]
    one at a time, and a failed callback ends the stream. *)
Fixpoint consume (E : environment) (r : impl) (cpu : N) (s : stats) (w : world)
    (entries : list (temporary_buffer * replay_position))
    : result unit * stats * world :=
  match entries with
  | [] => (Ok tt, s, w)
  | (buf, rp) :: rest =>
      match process E r cpu s w buf rp with
      | (Ok _, s', w') => consume E r cpu s' w' rest
      | (Throw e, s', w') => (Throw e, s', w')
      end
  end.

(** Lines 221-237: read from offset [p], then sort out how the stream
    ended. *)
Definition recover_from (E : environment) (r : impl) (cpu : N) (w : world)
    (file : string) (p : N) : result stats * world :=
  let sr := read_log_file E file p in
  match consume E r cpu stats0 (record_read w file p) (sr_entries sr) with
  | (Ok _, s, w') =>
      match sr_end sr with
      | None => (Ok s, w')
      | Some (segment_data_corruption_error bytes) => (Ok (add_corrupt s bytes), w')
      | Some e => (Throw e, w')
      end
  | (Throw (segment_data_corruption_error bytes), s, w') => (Ok (add_corrupt s bytes), w')
  | (Throw e, _, w') => (Throw e, w')
  end.

Definition recover (E : environment) (r : impl) (cpu : N) (w : world) (file : string)
    : result stats * world :=
  if negb (local_is_initialized w cpu) then (Throw assertion_failure, w)
  else
    match descriptor E file with
    | Throw e => (Throw e, w)
    | Ok rp =>
        match _min_pos r !! shard_id rp with
        | None => (Throw out_of_range, w)
        | Some gp =>
            if rp_id rp <? rp_id gp then (Ok stats0, w)
            else recover_from E r cpu w file (if rp_id rp =? rp_id gp then rp_pos gp else 0)
        end
    end.

(** ** [commitlog_replayer::recover]: the serial loop of one shard
    (lines 358-379) *)
Fixpoint recover_on_shard (E : environment) (r : impl) (cpu : N) (total : stats)
    (w : world) (files : list string) : result stats * world :=
  match files with
  | [] => (Ok total, w)
  | f :: rest =>
      match recover E r cpu w f with
      | (Ok st, w') => recover_on_shard E r cpu (stats_add total st) w' rest
      | (Throw e, w') => (Throw e, w')
      end
  end.

(** ** Vocabulary of the statements *)

(** The entry's schema version is known on this cpu, or the entry brings
    its own column mapping. *)
Definition resolvable (cpu : N) (w : world) (cer : commitlog_entry) : Prop :=
  is_Some (local_cm w cpu !! schema_version (mutation cer))
  ∨ is_Some (get_column_mapping cer).

(** [w'] differs from [w] at most in the column mappings: nothing was
    applied, dispatched or read in between. *)
Definition same_trace (w w' : world) : Prop :=
  applied w' = applied w ∧ invoked w' = invoked w ∧ reads w' = reads w.


Definition stats_wf (s : stats) : Prop :=
  invalid_mutations s < 2 ^ 64 ∧ skipped_mutations s < 2 ^ 64
  ∧ applied_mutations s < 2 ^ 64 ∧ corrupt_bytes s < 2 ^ 64.



(** The reducer's input seen as one sequence of contributions
    (shard, table, position): the bindings of a cpu's map, and those of all
    cpus one after the other. *)
Definition flatten (map : shard_rpm_map) : list (N * UUID * replay_position) :=
  map_to_list map ≫= λ sm, (λ tp, (sm.1, tp.1, tp.2)) <$> map_to_list sm.2.

Definition contributions (E : environment) : list (N * UUID * replay_position) :=
  all_cpus E ≫= λ cpu, flatten (mapper E cpu).

Definition reduce_all (r : impl) (l : list (N * UUID * replay_position)) : impl :=
  foldl (λ r c, reduce_step r c.1.1 c.1.2 c.2) r l.

(** What the reducer has established once it has consumed the
    contributions [l]: a shard has a minimum exactly when it has a
    contribution, the minimum is one of the shard's contributions and is
    below all of them, and the position recorded for a table on a shard
    bounds the contributions for that pair from above and is reached by
    one of them. *)
Definition reduce_inv (r : impl) (l : list (N * UUID * replay_position)) : Prop :=
  (∀ s, _min_pos r !! s = None → ∀ t p, (s, t, p) ∉ l)
  ∧ (∀ s m, _min_pos r !! s = Some m →
       (∃ t, (s, t, m) ∈ l) ∧ ∀ t p, (s, t, p) ∈ l → rp_le m p = true)
  ∧ (∀ s t p, (s, t, p) ∈ l →
       ∃ mp x, _rpm r !! s = Some mp ∧ mp !! t = Some x ∧ rp_le p x = true)
  ∧ (∀ s mp t x, _rpm r !! s = Some mp → mp !! t = Some x →
       ∃ p, (s, t, p) ∈ l ∧ rp_le x p = true).

(** What the map-reduce establishes about the global minimum [m] of shard
    [s]: it is the least of the shard's contributions; it is at most every
    position recorded for a table on [s], each of which is the greatest
    contribution for its table; and when no table of [s] has two different
    contributions, [m] is itself reached by a table's recorded position, so
    it is the least of them. *)
Definition global_min_spec (E : environment) (s : N) (m : replay_position) : Prop :=
  (∃ t, (s, t, m) ∈ contributions E)
  ∧ (∀ t p, (s, t, p) ∈ contributions E → rp_le m p = true)
  ∧ (∀ mp t x,
       _rpm (init_map_reduce E) !! s = Some mp → mp !! t = Some x →
       rp_le m x = true
       ∧ (∀ p, (s, t, p) ∈ contributions E → rp_le p x = true)
       ∧ (∃ p, (s, t, p) ∈ contributions E ∧ rp_le x p = true))
  ∧ ((∀ t p q, (s, t, p) ∈ contributions E → (s, t, q) ∈ contributions E → p = q) →
     ∃ mp t x, _rpm (init_map_reduce E) !! s = Some mp ∧ mp !! t = Some x
               ∧ rp_le x m = true).

(** No table has files on disk and nothing was ever truncated. *)
Definition fresh_catalogue (E : environment) : Prop :=
  ∀ cpu uuid cf,
    get_column_families (sharded_db E cpu) !! uuid = Some cf →
    get_sstables cf = [] ∧ get_truncated_position E uuid = [].

(** ** A small installation used to exercise the statements

    One cpu, one table (id 100, schema version 7) whose applies succeed; on
    shard 0 the table is durable up to (1, 60) and the shard's minimum is
    (1, 50). *)
Module Scenario.

Definition table : column_family := mk_cf 7 [] (λ _, Ok tt).

Definition segment : list (temporary_buffer * replay_position) :=
  [ (Some (mk_entry (mk_fm 100 7 1 1) (Some 9)), mk_rp 0 1 70);
    (Some (mk_entry (mk_fm 100 7 2 2) None), mk_rp 0 1 80);
    (Some (mk_entry (mk_fm 100 7 3 3) None), mk_rp 0 1 90) ].

(** Every file name parses to segment 1 of shard 0 and reads as
    [entries] followed by [ending], whatever the start offset. *)
Definition env (entries : list (temporary_buffer * replay_position))
    (ending : option exception) : environment :=
  mk_env 1 (λ _, mk_db {[ 100 := table ]} (λ _, 0)) (λ _, [])
    (λ _, Ok (mk_rp 0 1 0)) (λ _ _, mk_read entries ending).

Definition replayer_at (gp : replay_position) : impl :=
  mk_impl {[ 0 := {[ 100 := mk_rp 0 1 60 ]} ]} {[ 0 := gp ]}.

Definition replayer : impl := replayer_at (mk_rp 0 1 50).

Definition fresh : world := start (env [] None) (mk_world ∅ [] [] []).

(** An entry for table [t] under schema version 7, with or without an
    embedded column mapping. *)
Definition plain (t : UUID) : commitlog_entry := mk_entry (mk_fm t 7 1 1) None.
Definition mapped (t : UUID) : commitlog_entry := mk_entry (mk_fm t 7 1 1) (Some 9).

(** Two cpus.  Table 100 has one file on cpu 0, flushed at (1, 10) of
    shard 0, and was truncated earlier at (1, 5) of shard 0; table 200,
    when present, has no files and no truncation record. *)
Definition flushed_table : column_family :=
  mk_cf 7 [mk_sstable (Some (mk_rp 0 1 10))] (λ _, Ok tt).

Definition truncated_env (with_empty_table : bool) : environment :=
  mk_env 2
    (λ cpu, mk_db (if with_empty_table
                   then <[ 200 := table ]>
                          {[ 100 := if cpu =? 0 then flushed_table else table ]}
                   else {[ 100 := if cpu =? 0 then flushed_table else table ]})
              (λ k, k mod 2))
    (λ uuid, if uuid =? 100 then [mk_rp 0 1 5] else [])
    (λ _, Ok (mk_rp 0 1 0)) (λ _ _, mk_read [] None).

End Scenario.

(** ** The rest of the file: stopping the service and the entry point *)

(** [_column_mappings.stop()]: the tables of all cpus are destroyed. *)
Definition stop (w : world) : world :=
  {| column_mappings := ∅;
     applied := applied w; invoked := invoked w; reads := reads w |}.

(** Lines 348-353: every file is keyed by the shard of its name, modulo the
    number of cpus; a name that does not parse throws.  The
    [unordered_multimap] keeps no order, so it is the multiset of its
    (key, file) pairs. *)
Fixpoint assign_files (E : environment) (files : list string)
    : result (gmultiset (N * string)) :=
  match files with
  | [] => Ok ∅
  | f :: rest =>
      match descriptor E f with
      | Throw e => Throw e
      | Ok p =>
          match assign_files E rest with
          | Throw e => Throw e
          | Ok map => Ok ({[+ (shard_id p mod N.of_nat (smp_count E), f) +]} ⊎ map)
          end
      end
  end.

(** [commitlog_replayer::recover(std::vector<sstring>)] (lines 342-391).
    [run] stands for the map-reduce over all cpus of lines 356-387: which
    files a cpu takes, and in which order, is decided by the buckets of the
    hash map, and the cpus run concurrently, so it is left as a parameter
    here.  The totals are only logged; the caller sees whether the replay
    failed. *)
Definition recover_files (run : gmultiset (N * string) → world → result stats * world)
    (E : environment) (w : world) (files : list string) : result unit * world :=
  match assign_files E files with
  | Throw e => (Throw e, w)
  | Ok map =>
      match run map (start E w) with
      | (Ok _, w') => (Ok tt, stop w')
      | (Throw e, w') => (Throw e, stop w')
      end
  end.

(** [commitlog_replayer::recover(sstring)] (lines 393-395). *)
Definition recover_file (run : gmultiset (N * string) → world → result stats * world)
    (E : environment) (w : world) (f : string) : result unit * world :=
  recover_files run E w [f].

(** ** Further vocabulary *)

(** The positions a cpu finds for a table: those of its files whose
    metadata can be read, then the table's truncation records. *)
Definition cf_positions (E : environment) (uuid : UUID) (cf : column_family)
    : list replay_position :=
  omap sst_position (get_sstables cf) ++ get_truncated_position E uuid.

(** The updates [map[p.shard_id()][uuid] = max(..., p)] the mapper performs
    on one cpu, in order. *)
Definition raises (E : environment) (cpu : N) : list (N * UUID * replay_position) :=
  map_to_list (get_column_families (sharded_db E cpu))
    ≫= λ kv, (λ p, (shard_id p, kv.1, p)) <$> cf_positions E kv.1 kv.2.

Definition raise_all (m : shard_rpm_map) (l : list (N * UUID * replay_position))
    : shard_rpm_map :=
  foldl (λ m c, rpm_raise m c.1.1 c.1.2 c.2) m l.

(** Position [p] is one cpu [cpu] holds for table [t], written by shard
    [s]: the flush position of one of the cpu's files of [t], or one of the
    truncation records of [t]. *)
Definition cpu_position (E : environment) (cpu s : N) (t : UUID) (p : replay_position)
    : Prop :=
  shard_id p = s
  ∧ ∃ cf, get_column_families (sharded_db E cpu) !! t = Some cf
          ∧ ((∃ sst, sst ∈ get_sstables cf ∧ sst_position sst = Some p)
             ∨ p ∈ get_truncated_position E t).

(** Every column mapping known in [w] is still known, unchanged, in [w']. *)
Definition cm_grows (w w' : world) : Prop :=
  ∀ c v cm, local_cm w c !! v = Some cm → local_cm w' c !! v = Some cm.

(** ** Two more installations

    As [Scenario.env], but the table refuses every mutation, or the table
    has moved on to schema version 8. *)
Module Variants.

Definition refusing_table : column_family := mk_cf 7 [] (λ _, Throw (other_error 1)).

Definition refusing_env : environment :=
  mk_env 1 (λ _, mk_db {[ 100 := refusing_table ]} (λ _, 0)) (λ _, [])
    (λ _, Ok (mk_rp 0 1 0)) (λ _ _, mk_read Scenario.segment None).

Definition evolved_table : column_family := mk_cf 8 [] (λ _, Ok tt).

Definition evolved_env : environment :=
  mk_env 1 (λ _, mk_db {[ 100 := evolved_table ]} (λ _, 0)) (λ _, [])
    (λ _, Ok (mk_rp 0 1 0)) (λ _ _, mk_read Scenario.segment None).

(** A position written by shard 5, of which [Scenario.replayer] knows
    nothing. *)
Definition other_shard : replay_position := mk_rp 5 1 70.

(** As [Scenario.truncated_env false], but segment files are those of
    shard 1, for which no table has a file or a truncation record. *)
Definition grown_env : environment :=
  mk_env 2
    (λ cpu, mk_db {[ 100 := if cpu =? 0 then Scenario.flushed_table else Scenario.table ]}
              (λ k, k mod 2))
    (λ uuid, if uuid =? 100 then [mk_rp 0 1 5] else [])
    (λ _, Ok (mk_rp 1 1 0)) (λ _ _, mk_read Scenario.segment None).

(** Four cpus; the files named 0 to 3 parse to segment 1 of the shard of
    that number, and no other name parses. *)
Definition named_env : environment :=
  mk_env 4 (λ _, mk_db {[ 100 := Scenario.table ]} (λ k, k mod 4)) (λ _, [])
    (λ f, if decide (f = "0"%string) then Ok (mk_rp 0 1 0)
          else if decide (f = "1"%string) then Ok (mk_rp 1 1 0)
          else if decide (f = "2"%string) then Ok (mk_rp 2 1 0)
          else if decide (f = "3"%string) then Ok (mk_rp 3 1 0)
          else Throw invalid_segment_name)
    (λ _ _, mk_read Scenario.segment None).

(** One way of running the shards: one after the other, each taking the
    files keyed with its id, in the order the multiset lists them. *)
Definition run_in_turn (E : environment) (r : impl) (map : gmultiset (N * string))
    (w : world) : result stats * world :=
  foldl (λ acc cpu,
           match acc with
           | (Ok total, w) =>
               match recover_on_shard E r cpu stats0 w
                       ((filter (λ kf, kf.1 = cpu) (elements map)).*2) with
               | (Ok st, w') => (Ok (stats_add total st), w')
               | (Throw e, w') => (Throw e, w')
               end
           | (Throw e, w) => (Throw e, w)
           end)
        (Ok stats0, w) (all_cpus E).

End Variants.

(** ** Proof steps for membership in a list extended at its end *)

Local Ltac in_prefix := apply elem_of_app; left; eassumption.
Local Ltac in_last := apply elem_of_app; right; by apply list_elem_of_singleton.
Local Ltac split_last H :=
  apply elem_of_app in H as [H | H];
  [| apply list_elem_of_singleton in H; simplify_eq ].

(** * Properties of [process] *)

Section process_facts.
Context (E : environment) (r : impl) (cpu : N).

Lemma same_trace_refl w : same_trace w w.
Proof. by repeat split. Qed.

Lemma source_mapping_resolvable w cer :
  resolvable cpu w cer →
  ∃ cm w1, source_mapping w cpu cer = Ok (cm, w1) ∧ same_trace w w1.
Proof.
  intros [[cm Hcm] | [cm Hcm]]; unfold source_mapping.
  - rewrite Hcm. eauto using same_trace_refl.
  - rewrite Hcm. destruct (local_cm w cpu !! _) as [cm'|];
      eexists _, _; (split; [reflexivity | by repeat split]).
Qed.

Lemma source_mapping_reads w cer cm w1 :
  source_mapping w cpu cer = Ok (cm, w1) → reads w1 = reads w.
Proof.
  unfold source_mapping. intros H.
  destruct (local_cm w cpu !! _); [by simplify_eq |].
  destruct (get_column_mapping cer); by simplify_eq.
Qed.

Lemma apply_on_shard_reads shard cer cm s w :
  reads (apply_on_shard E shard cer cm s w).2 = reads w.
Proof.
  unfold apply_on_shard.
  destruct (find_column_family _ _) as [cf|]; [|done].
  destruct (negb _).
  - destruct (cf_apply cf _); destruct (local_cm w shard !! _); done.
  - by destruct (cf_apply cf _).
Qed.

Lemma dispatch_ready shard cer cm s w : (dispatch E shard cer cm s w).1.1 = Ok tt.
Proof.
  unfold dispatch. by destruct (apply_on_shard _ _ _ _ _ _) as [[[[]|] ?] ?].
Qed.

Lemma dispatch_reads shard cer cm s w :
  reads (dispatch E shard cer cm s w).2 = reads w.
Proof.
  unfold dispatch.
  pose proof (apply_on_shard_reads shard cer cm s (record_invoke w shard cer)) as H.
  by destruct (apply_on_shard _ _ _ _ _ _) as [[[[]|] ?] ?].
Qed.

(** [process] never returns a failed future: every exception is handled
    inside it. *)
Lemma process_ready s w buf rp : (process E r cpu s w buf rp).1.1 = Ok tt.
Proof.
  unfold process.
  repeat (case_match; try done); apply dispatch_ready.
Qed.

Lemma process_reads s w buf rp : reads (process E r cpu s w buf rp).2 = reads w.
Proof.
  unfold process.
  destruct (commitlog_entry_reader buf) as [cer|]; [|done].
  destruct (source_mapping w cpu cer) as [[cm w1]|] eqn:Hsm; [|done].
  apply source_mapping_reads in Hsm.
  repeat (case_match; try done). by rewrite dispatch_reads.
Qed.

(** A dispatched entry ends up applied or invalid, never skipped. *)
Lemma dispatch_counts shard cer cm s w :
  (dispatch E shard cer cm s w).1.2 = incr_applied s
  ∨ (dispatch E shard cer cm s w).1.2 = incr_invalid s.
Proof.
  unfold dispatch, apply_on_shard.
  repeat (case_match; simplify_eq/=; auto).
Qed.


End process_facts.

(** C1 (as amended).  An entry handed to [process] whose position is below
    the global minimum of its shard, and whose schema version is known on
    the processing cpu or which carries its column mapping, is counted in
    [skipped] exactly once (the counter goes up by one, modulo 2^64), leaves
    the other three counters as they were, and is neither dispatched nor
    applied. *)
Theorem process_coarse_skip (E : environment) (r : impl) (cpu : N) (s : stats)
    (w : world) (cer : commitlog_entry) (rp gp : replay_position) :
  resolvable cpu w cer →
  _min_pos r !! shard_id rp = Some gp →
  rp_lt rp gp = true →
  ∃ w1, process E r cpu s w (Some cer) rp
        = (Ok tt,
           mk_stats (invalid_mutations s) ((skipped_mutations s + 1) mod 2 ^ 64)
             (applied_mutations s) (corrupt_bytes s),
           w1)
        ∧ same_trace w w1.
Proof.
  intros Hres Hgp Hlt.
  destruct (source_mapping_resolvable cpu w cer Hres) as (cm & w1 & Hsm & Htr).
  exists w1. split; [|done].
  unfold process. cbn. by rewrite Hsm, Hgp, Hlt.
Qed.

Lemma process_coarse_skip_witness :
  ∃ w1, process (Scenario.env [] None) Scenario.replayer 0 (mk_stats 4 5 6 7)
          Scenario.fresh (Some (Scenario.mapped 100)) (mk_rp 0 1 10)
        = (Ok tt, mk_stats 4 6 6 7, w1)
        ∧ same_trace Scenario.fresh w1.
Proof.
  apply (process_coarse_skip (Scenario.env [] None) Scenario.replayer 0
           (mk_stats 4 5 6 7) Scenario.fresh (Scenario.mapped 100) (mk_rp 0 1 10)
           (mk_rp 0 1 50)).
  - right. eexists. reflexivity.
  - vm_compute. reflexivity.
  - vm_compute. reflexivity.
Defined.

(** C1 as stated fails: an entry below the global minimum whose schema
    version is unknown and which carries no mapping is counted as invalid,
    not as skipped. *)
Lemma process_coarse_skip_counterexample :
  let rp := mk_rp 0 1 10 in
  let out := process (Scenario.env [] None) Scenario.replayer 0 stats0 Scenario.fresh
               (Some (Scenario.plain 100)) rp in
  _min_pos Scenario.replayer !! shard_id rp = Some (mk_rp 0 1 50)
  ∧ rp_lt rp (mk_rp 0 1 50) = true
  ∧ local_cm Scenario.fresh 0 !! schema_version (mutation (Scenario.plain 100)) = None
  ∧ skipped_mutations out.1.2 = 0
  ∧ invalid_mutations out.1.2 = 1.
Proof. vm_compute. done. Qed.

(** C4 (as amended).  For an entry at or above its shard's global minimum
    whose schema version is known or which carries its mapping, and whose
    table has a recorded position [tp] on that shard: if [rp ≤ tp] the entry
    is counted in [skipped] exactly once (the counter goes up by one, modulo
    2^64, the other three stay) and is neither dispatched nor applied; a
    position equal to [tp] is such a position; and if [rp] is above [tp] the
    entry is not counted in [skipped]. *)
Theorem process_fine_skip (E : environment) (r : impl) (cpu : N) (s : stats)
    (w : world) (cer : commitlog_entry) (rp gp tp : replay_position) (map : rp_map) :
  resolvable cpu w cer →
  _min_pos r !! shard_id rp = Some gp →
  rp_lt rp gp = false →
  _rpm r !! shard_id rp = Some map →
  map !! column_family_id (mutation cer) = Some tp →
  (rp_le rp tp = true →
     ∃ w1, process E r cpu s w (Some cer) rp
           = (Ok tt,
              mk_stats (invalid_mutations s) ((skipped_mutations s + 1) mod 2 ^ 64)
                (applied_mutations s) (corrupt_bytes s),
              w1)
           ∧ same_trace w w1)
  ∧ (rp_id rp = rp_id tp → rp_pos rp = rp_pos tp → rp_le rp tp = true)
  ∧ (rp_le rp tp = false →
       skipped_mutations (process E r cpu s w (Some cer) rp).1.2 = skipped_mutations s).
Proof.
  intros Hres Hgp Hge Hmap Htp.
  destruct (source_mapping_resolvable cpu w cer Hres) as (cm & w1 & Hsm & Htr).
  split; [|split].
  - intros Hle. exists w1. split; [|done].
    unfold process, already_flushed. cbn. by rewrite Hsm, Hgp, Hge, Hmap, Htp, Hle.
  - intros Hid Hpos. unfold rp_le, rp_lt. rewrite Hid, Hpos.
    by rewrite !N.ltb_irrefl.
  - intros Hgt. unfold process, already_flushed, shard_of. cbn.
    rewrite Hsm, Hgp, Hge, Hmap, Htp, Hgt.
    by destruct (dispatch_counts E (partitioner_shard (sharded_db E cpu)
                                      (fm_key (mutation cer))) cer cm s w1)
      as [-> | ->].
Qed.

Lemma process_fine_skip_witness :
  ∃ w1, process (Scenario.env [] None) Scenario.replayer 0 (mk_stats 4 5 6 7)
          Scenario.fresh (Some (Scenario.mapped 100)) (mk_rp 0 1 60)
        = (Ok tt, mk_stats 4 6 6 7, w1)
        ∧ same_trace Scenario.fresh w1.
Proof.
  refine (proj1 (process_fine_skip (Scenario.env [] None) Scenario.replayer 0
           (mk_stats 4 5 6 7) Scenario.fresh (Scenario.mapped 100) (mk_rp 0 1 60)
           (mk_rp 0 1 50) (mk_rp 0 1 60) {[ 100 := mk_rp 0 1 60 ]} _ _ _ _ _) _).
  - right. eexists. reflexivity.
  - vm_compute. reflexivity.
  - vm_compute. reflexivity.
  - vm_compute. reflexivity.
  - vm_compute. reflexivity.
  - vm_compute. reflexivity.
Defined.

(** C4 as stated fails: an entry at or above the global minimum and at or
    below its table's recorded position, whose schema version is unknown and
    which carries no mapping, is counted as invalid, not as skipped. *)
Lemma process_fine_skip_counterexample :
  let rp := mk_rp 0 1 55 in
  let tp := mk_rp 0 1 60 in
  let out := process (Scenario.env [] None) Scenario.replayer 0 stats0 Scenario.fresh
               (Some (Scenario.plain 100)) rp in
  _min_pos Scenario.replayer !! shard_id rp = Some (mk_rp 0 1 50)
  ∧ rp_lt rp (mk_rp 0 1 50) = false
  ∧ _rpm Scenario.replayer !! shard_id rp = Some {[ 100 := tp ]}
  ∧ rp_le rp tp = true
  ∧ skipped_mutations out.1.2 = 0
  ∧ invalid_mutations out.1.2 = 1.
Proof. vm_compute. done. Qed.



(** C7.  An entry whose schema version is not in the processing cpu's
    column mappings and which carries no mapping of its own raises the
    unknown-schema-version error inside [process]: [invalid] goes up by one
    (modulo 2^64), the other counters and the world stay as they were (so
    the entry is not applied), and the stream goes on with the next
    entry. *)
Theorem process_unknown_schema_version (E : environment) (r : impl) (cpu : N)
    (s : stats) (w : world) (cer : commitlog_entry) (rp : replay_position) :
  local_cm w cpu !! schema_version (mutation cer) = None →
  get_column_mapping cer = None →
  process E r cpu s w (Some cer) rp
  = (Ok tt,
     mk_stats ((invalid_mutations s + 1) mod 2 ^ 64) (skipped_mutations s)
       (applied_mutations s) (corrupt_bytes s),
     w)
  ∧ ∀ rest, consume E r cpu s w ((Some cer, rp) :: rest)
            = consume E r cpu
                (mk_stats ((invalid_mutations s + 1) mod 2 ^ 64) (skipped_mutations s)
                   (applied_mutations s) (corrupt_bytes s))
                w rest.
Proof.
  intros Hmiss Hnone.
  assert (process E r cpu s w (Some cer) rp = (Ok tt, incr_invalid s, w)) as Hp.
  { unfold process, source_mapping. cbn. by rewrite Hmiss, Hnone. }
  split; [done|]. intros rest. cbn [consume]. by rewrite Hp.
Qed.

Lemma process_unknown_schema_version_witness :
  process (Scenario.env [] None) Scenario.replayer 0 (mk_stats 4 5 6 7) Scenario.fresh
    (Some (Scenario.plain 100)) (mk_rp 0 1 70)
  = (Ok tt, mk_stats 5 5 6 7, Scenario.fresh)
  ∧ ∀ rest, consume (Scenario.env [] None) Scenario.replayer 0 (mk_stats 4 5 6 7)
              Scenario.fresh ((Some (Scenario.plain 100), mk_rp 0 1 70) :: rest)
            = consume (Scenario.env [] None) Scenario.replayer 0 (mk_stats 5 5 6 7)
                Scenario.fresh rest.
Proof.
  apply (process_unknown_schema_version (Scenario.env [] None) Scenario.replayer 0
           (mk_stats 4 5 6 7) Scenario.fresh (Scenario.plain 100) (mk_rp 0 1 70)).
  - vm_compute. reflexivity.
  - reflexivity.
Defined.

(** * Properties of [recover] *)

Section recover_facts.
Context (E : environment) (r : impl) (cpu : N).

Lemma catch_sync_corrupt e s : corrupt_bytes (catch_sync e s) = corrupt_bytes s.
Proof. by destruct e. Qed.

Lemma process_corrupt s w buf rp :
  corrupt_bytes (process E r cpu s w buf rp).1.2 = corrupt_bytes s.
Proof.
  unfold process.
  repeat (case_match; try done; try apply catch_sync_corrupt).
  match goal with
  | |- context [dispatch E ?sh ?cer ?cm s ?w1] =>
      by destruct (dispatch_counts E sh cer cm s w1) as [-> | ->]
  end.
Qed.

(** The stream of a segment is always drained to its end: no entry makes
    the callback fail. *)
Lemma consume_ok entries : ∀ s w,
  ∃ s' w', consume E r cpu s w entries = (Ok tt, s', w')
           ∧ reads w' = reads w ∧ corrupt_bytes s' = corrupt_bytes s.
Proof.
  induction entries as [|[buf rp] rest IH]; intros s w; cbn [consume].
  - by exists s, w.
  - pose proof (process_ready E r cpu s w buf rp) as Hr.
    pose proof (process_reads E r cpu s w buf rp) as Hrd.
    pose proof (process_corrupt s w buf rp) as Hc.
    destruct (process E r cpu s w buf rp) as [[f s1] w1]. cbn in Hr, Hrd, Hc.
    subst f. destruct (IH s1 w1) as (s' & w' & -> & Hrd' & Hc').
    exists s', w'. split; [done|]. split; congruence.
Qed.

Lemma recover_from_reads w file p :
  reads (recover_from E r cpu w file p).2 = reads w ++ [(file, p)].
Proof.
  unfold recover_from.
  destruct (consume_ok (sr_entries (read_log_file E file p)) stats0
              (record_read w file p)) as (s' & w' & -> & Hrd & _).
  destruct (sr_end _) as [[]|]; cbn; by rewrite Hrd.
Qed.

End recover_facts.

(** C8.  When the segment's stream ends with tail corruption of [b] bytes,
    [recover] returns the statistics of the entries read before it with
    [corrupt_bytes] raised from zero to [b] (modulo 2^64) and the three entry
    counters as the entries left them, and the shard's loop goes on with
    the remaining files; when it ends with any other failure, [recover]
    fails with it and so does the loop, without touching the remaining
    files. *)
Theorem recover_stream_end (E : environment) (r : impl) (cpu : N) (w : world)
    (file : string) (rp gp : replay_position) :
  local_is_initialized w cpu = true →
  descriptor E file = Ok rp →
  _min_pos r !! shard_id rp = Some gp →
  (rp_id rp <? rp_id gp) = false →
  ∃ s w',
    consume E r cpu stats0
      (record_read w file (if rp_id rp =? rp_id gp then rp_pos gp else 0))
      (sr_entries (read_log_file E file (if rp_id rp =? rp_id gp then rp_pos gp else 0)))
    = (Ok tt, s, w')
    ∧ corrupt_bytes s = 0
    ∧ (∀ b,
         sr_end (read_log_file E file (if rp_id rp =? rp_id gp then rp_pos gp else 0))
         = Some (segment_data_corruption_error b) →
         recover E r cpu w file
         = (Ok (mk_stats (invalid_mutations s) (skipped_mutations s)
                  (applied_mutations s) (b mod 2 ^ 64)), w')
         ∧ ∀ total rest,
             recover_on_shard E r cpu total w (file :: rest)
             = recover_on_shard E r cpu
                 (stats_add total
                    (mk_stats (invalid_mutations s) (skipped_mutations s)
                       (applied_mutations s) (b mod 2 ^ 64)))
                 w' rest)
    ∧ (∀ e,
         sr_end (read_log_file E file (if rp_id rp =? rp_id gp then rp_pos gp else 0))
         = Some e →
         (∀ b, e ≠ segment_data_corruption_error b) →
         recover E r cpu w file = (Throw e, w')
         ∧ ∀ total rest,
             recover_on_shard E r cpu total w (file :: rest) = (Throw e, w')).
Proof.
  intros Hinit Hd Hgp Hlt.
  set (p := if rp_id rp =? rp_id gp then rp_pos gp else 0).
  destruct (consume_ok E r cpu (sr_entries (read_log_file E file p)) stats0
              (record_read w file p)) as (s & w' & Hc & _ & Hcb).
  exists s, w'. split_and!; [done..| |].
  - intros b Hend.
    assert (recover E r cpu w file
            = (Ok (mk_stats (invalid_mutations s) (skipped_mutations s)
                     (applied_mutations s) (b mod 2 ^ 64)), w')) as Hrec.
    { unfold recover, recover_from. rewrite Hinit, Hd, Hgp, Hlt. cbn.
      fold p. rewrite Hc, Hend. unfold add_corrupt, u64.
      change (corrupt_bytes stats0) with 0 in Hcb. by rewrite Hcb, N.add_0_l. }
    split; [done|]. intros total rest. cbn [recover_on_shard]. by rewrite Hrec.
  - intros e Hend Hne.
    assert (recover E r cpu w file = (Throw e, w')) as Hrec.
    { unfold recover, recover_from. rewrite Hinit, Hd, Hgp, Hlt. cbn.
      fold p. rewrite Hc, Hend. destruct e; try done. by destruct (Hne bytes). }
    split; [done|]. intros total rest. cbn [recover_on_shard]. by rewrite Hrec.
Qed.

(** C9.  With [rp] the position parsed from the segment's name and [gp] the
    global minimum of its shard: equal ids make [recover] read from offset
    [gp.pos]; a larger segment id makes it read from offset 0; a smaller
    one makes it return zero statistics without reading anything. *)
Theorem recover_start_offset (E : environment) (r : impl) (cpu : N) (w : world)
    (file : string) (rp gp : replay_position) :
  local_is_initialized w cpu = true →
  descriptor E file = Ok rp →
  _min_pos r !! shard_id rp = Some gp →
  (rp_id rp = rp_id gp →
     recover E r cpu w file = recover_from E r cpu w file (rp_pos gp)
     ∧ reads (recover E r cpu w file).2 = reads w ++ [(file, rp_pos gp)])
  ∧ (rp_id gp < rp_id rp →
       recover E r cpu w file = recover_from E r cpu w file 0
       ∧ reads (recover E r cpu w file).2 = reads w ++ [(file, 0)])
  ∧ (rp_id rp < rp_id gp → recover E r cpu w file = (Ok stats0, w)).
Proof.
  intros Hinit Hd Hgp. unfold recover. rewrite Hinit, Hd, Hgp. cbn.
  split_and!.
  - intros Heq. rewrite Heq, N.ltb_irrefl, N.eqb_refl.
    split; [done|]. apply recover_from_reads.
  - intros Hlt.
    rewrite (proj2 (N.ltb_ge _ _)) by lia.
    rewrite (proj2 (N.eqb_neq _ _)) by lia.
    split; [done|]. apply recover_from_reads.
  - intros Hlt. by rewrite (proj2 (N.ltb_lt _ _)) by done.
Qed.

Lemma recover_stream_end_witness :
  (∃ w',
     recover (Scenario.env Scenario.segment (Some (segment_data_corruption_error 40)))
       Scenario.replayer 0 Scenario.fresh "segment"
     = (Ok (mk_stats 0 0 3 40), w')
     ∧ ∀ total rest,
         recover_on_shard
           (Scenario.env Scenario.segment (Some (segment_data_corruption_error 40)))
           Scenario.replayer 0 total Scenario.fresh ("segment"%string :: rest)
         = recover_on_shard
             (Scenario.env Scenario.segment (Some (segment_data_corruption_error 40)))
             Scenario.replayer 0 (stats_add total (mk_stats 0 0 3 40)) w' rest)
  ∧ (∃ w',
       recover (Scenario.env Scenario.segment (Some (other_error 5)))
         Scenario.replayer 0 Scenario.fresh "segment"
       = (Throw (other_error 5), w')
       ∧ ∀ total rest,
           recover_on_shard (Scenario.env Scenario.segment (Some (other_error 5)))
             Scenario.replayer 0 total Scenario.fresh ("segment"%string :: rest)
           = (Throw (other_error 5), w')).
Proof.
  split.
  - edestruct (recover_stream_end
                 (Scenario.env Scenario.segment (Some (segment_data_corruption_error 40)))
                 Scenario.replayer 0 Scenario.fresh "segment" (mk_rp 0 1 0)
                 (mk_rp 0 1 50))
      as (s & w' & Hc & _ & Hcorr & _);
      [vm_compute; reflexivity | reflexivity | vm_compute; reflexivity | reflexivity |].
    destruct (Hcorr 40 eq_refl) as [Hrec Hloop].
    vm_compute in Hc. injection Hc as Hs _. subst s.
    exists w'. split; [exact Hrec | exact Hloop].
  - edestruct (recover_stream_end
                 (Scenario.env Scenario.segment (Some (other_error 5)))
                 Scenario.replayer 0 Scenario.fresh "segment" (mk_rp 0 1 0)
                 (mk_rp 0 1 50))
      as (s & w' & _ & _ & _ & Hother);
      [vm_compute; reflexivity | reflexivity | vm_compute; reflexivity | reflexivity |].
    exists w'. apply (Hother (other_error 5) eq_refl). intros b. discriminate.
Defined.

Lemma recover_start_offset_witness :
  (recover (Scenario.env Scenario.segment None) (Scenario.replayer_at (mk_rp 0 1 50)) 0
     Scenario.fresh "segment"
   = recover_from (Scenario.env Scenario.segment None)
       (Scenario.replayer_at (mk_rp 0 1 50)) 0 Scenario.fresh "segment" 50
   ∧ reads (recover (Scenario.env Scenario.segment None)
              (Scenario.replayer_at (mk_rp 0 1 50)) 0 Scenario.fresh "segment").2
     = reads Scenario.fresh ++ [("segment"%string, 50)])
  ∧ (recover (Scenario.env Scenario.segment None) (Scenario.replayer_at (mk_rp 0 0 50)) 0
       Scenario.fresh "segment"
     = recover_from (Scenario.env Scenario.segment None)
         (Scenario.replayer_at (mk_rp 0 0 50)) 0 Scenario.fresh "segment" 0
     ∧ reads (recover (Scenario.env Scenario.segment None)
                (Scenario.replayer_at (mk_rp 0 0 50)) 0 Scenario.fresh "segment").2
       = reads Scenario.fresh ++ [("segment"%string, 0)])
  ∧ recover (Scenario.env Scenario.segment None) (Scenario.replayer_at (mk_rp 0 2 5)) 0
      Scenario.fresh "segment"
    = (Ok stats0, Scenario.fresh).
Proof.
  split; [|split].
  - refine (proj1 (recover_start_offset (Scenario.env Scenario.segment None)
             (Scenario.replayer_at (mk_rp 0 1 50)) 0 Scenario.fresh "segment"
             (mk_rp 0 1 0) (mk_rp 0 1 50) _ _ _) _);
      [vm_compute; reflexivity | reflexivity | vm_compute; reflexivity | reflexivity].
  - refine (proj1 (proj2 (recover_start_offset (Scenario.env Scenario.segment None)
             (Scenario.replayer_at (mk_rp 0 0 50)) 0 Scenario.fresh "segment"
             (mk_rp 0 1 0) (mk_rp 0 0 50) _ _ _)) _);
      [vm_compute; reflexivity | reflexivity | vm_compute; reflexivity | reflexivity].
  - refine (proj2 (proj2 (recover_start_offset (Scenario.env Scenario.segment None)
             (Scenario.replayer_at (mk_rp 0 2 5)) 0 Scenario.fresh "segment"
             (mk_rp 0 1 0) (mk_rp 0 2 5) _ _ _)) _);
      [vm_compute; reflexivity | reflexivity | vm_compute; reflexivity | reflexivity].
Defined.

(** * Accounting *)

Lemma u64_small x : x < 2 ^ 64 → u64 x = x.
Proof. apply N.mod_small. Qed.

Lemma u64_bound x : u64 x < 2 ^ 64.
Proof. apply N.mod_lt. done. Qed.






Lemma stats_add_wf a b : stats_wf (stats_add a b).
Proof. repeat split; cbn; auto using u64_bound. Qed.


Section accounting.
Context (E : environment) (r : impl) (cpu : N).








End accounting.





(** * The order on positions *)

Lemma rp_lt_spec a b :
  rp_lt a b = true ↔ rp_id a < rp_id b ∨ (rp_id a = rp_id b ∧ rp_pos a < rp_pos b).
Proof.
  unfold rp_lt.
  destruct (N.ltb_spec (rp_id a) (rp_id b)); [intuition lia|].
  destruct (N.ltb_spec (rp_id b) (rp_id a)); [intuition lia|].
  destruct (N.ltb_spec (rp_pos a) (rp_pos b)); intuition lia.
Qed.

Lemma rp_le_spec a b :
  rp_le a b = true ↔ rp_id a < rp_id b ∨ (rp_id a = rp_id b ∧ rp_pos a ≤ rp_pos b).
Proof.
  unfold rp_le. rewrite negb_true_iff, <- not_true_iff_false, rp_lt_spec. lia.
Qed.

Lemma rp_le_refl a : rp_le a a = true.
Proof. apply rp_le_spec. lia. Qed.

Lemma rp_le_trans a b c : rp_le a b = true → rp_le b c = true → rp_le a c = true.
Proof. rewrite !rp_le_spec. lia. Qed.

Lemma rp_lt_le a b : rp_lt a b = true → rp_le a b = true.
Proof. rewrite rp_lt_spec, rp_le_spec. lia. Qed.

Lemma rp_not_lt_le a b : rp_lt a b = false → rp_le b a = true.
Proof. unfold rp_le. by intros ->. Qed.

(** The default position is below every position. *)
Lemma rp_le_zero a : rp_le replay_position0 a = true.
Proof. apply rp_le_spec. cbn. lia. Qed.

Lemma rp_max_l a b : rp_le a (rp_max a b) = true.
Proof.
  unfold rp_max. destruct (rp_lt a b) eqn:H; [by apply rp_lt_le | apply rp_le_refl].
Qed.

Lemma rp_max_r a b : rp_le b (rp_max a b) = true.
Proof.
  unfold rp_max. destruct (rp_lt a b) eqn:H; [apply rp_le_refl | by apply rp_not_lt_le].
Qed.

Lemma rp_max_cases a b : rp_max a b = a ∨ rp_max a b = b.
Proof. unfold rp_max. destruct (rp_lt a b); auto. Qed.

(** * The correction for missing tables *)

Section finally_facts.
Context (uuid : UUID).

Lemma reset_if_missing_keeps (l : list (N * rp_map)) : ∀ (mp : shard_rp_map) s,
  mp !! s = Some replay_position0 →
  foldl (λ acc kv, reset_if_missing uuid acc kv.1 kv.2) mp l !! s
  = Some replay_position0.
Proof.
  induction l as [|[s' m'] l IH]; intros mp s Hs; cbn [foldl]; [done|].
  apply IH. unfold reset_if_missing. cbn [fst snd].
  destruct (m' !! uuid); [done|].
  destruct (decide (s' = s)) as [->|]; [apply lookup_insert_eq|].
  by rewrite lookup_insert_ne.
Qed.

Lemma reset_if_missing_hits (l : list (N * rp_map)) :
  ∀ (mp : shard_rp_map) s (m : rp_map),
    (s, m) ∈ l → m !! uuid = None →
    foldl (λ acc kv, reset_if_missing uuid acc kv.1 kv.2) mp l !! s
    = Some replay_position0.
Proof.
  induction l as [|[s' m'] l IH]; intros mp s m Hin Hm; cbn [foldl].
  - by apply elem_of_nil in Hin.
  - apply elem_of_cons in Hin as [[= <- <-] | Hin]; [|by eapply IH].
    apply reset_if_missing_keeps. unfold reset_if_missing. cbn [fst snd].
    rewrite Hm. apply lookup_insert_eq.
Qed.

End finally_facts.

Lemma init_finally_keeps (rpm : shard_rpm_map) (lc : list (UUID * column_family)) :
  ∀ (mp : shard_rp_map) s,
    mp !! s = Some replay_position0 →
    foldl (λ acc kv, for_each rpm (reset_if_missing kv.1) acc) mp lc !! s
    = Some replay_position0.
Proof.
  induction lc as [|[u cf] lc IH]; intros mp s Hs; cbn [foldl]; [done|].
  apply IH. unfold for_each. by apply reset_if_missing_keeps.
Qed.

Lemma init_finally_hits (rpm : shard_rpm_map) (lc : list (UUID * column_family)) :
  ∀ (mp : shard_rp_map) s (m : rp_map) uuid cf,
    (uuid, cf) ∈ lc → rpm !! s = Some m → m !! uuid = None →
    foldl (λ acc kv, for_each rpm (reset_if_missing kv.1) acc) mp lc !! s
    = Some replay_position0.
Proof.
  induction lc as [|[u c] lc IH]; intros mp s m uuid cf Hin Hs Hm;
    [by apply elem_of_nil in Hin|].
  cbn [foldl]. apply elem_of_cons in Hin as [[= <- <-] | Hin]; [|by eapply IH].
  apply init_finally_keeps. unfold for_each.
  apply elem_of_map_to_list in Hs. by eapply reset_if_missing_hits.
Qed.

(** C3.  After [init], for a shard [s] present in the aggregate and a table
    of the catalogue that has no position recorded for [s], the global
    minimum of [s] is the default (zero) position. *)
Theorem init_missing_table (E : environment) (cpu s : N) (m : rp_map) (uuid : UUID) :
  _rpm (init E cpu) !! s = Some m →
  is_Some (get_column_families (sharded_db E cpu) !! uuid) →
  m !! uuid = None →
  _min_pos (init E cpu) !! s = Some replay_position0.
Proof.
  intros Hs [cf Hcf] Hm. unfold init, init_finally in *. cbn [_rpm _min_pos] in *.
  apply elem_of_map_to_list in Hcf.
  unfold for_each at 1. by eapply init_finally_hits.
Qed.

Lemma init_missing_table_witness :
  _min_pos (init (Scenario.truncated_env true) 0) !! 0 = Some replay_position0.
Proof.
  apply (init_missing_table (Scenario.truncated_env true) 0 0
           {[ 100 := mk_rp 0 1 10 ]} 200).
  - vm_compute. reflexivity.
  - eexists. vm_compute. reflexivity.
  - vm_compute. reflexivity.
Defined.

(** * The map-reduce of [init] *)

Lemma reducer_flatten (r : impl) (map : shard_rpm_map) :
  reducer r map = reduce_all r (flatten map).
Proof.
  unfold reducer, flatten, for_each, reduce_all.
  generalize (map_to_list map). intros l. revert r.
  induction l as [|[s m] l IH]; intros r; [done|].
  rewrite bind_cons, foldl_app. cbn [foldl]. rewrite IH. f_equal.
  cbn. by rewrite foldl_fmap.
Qed.

Lemma init_map_reduce_contributions (E : environment) :
  init_map_reduce E = reduce_all (mk_impl ∅ ∅) (contributions E).
Proof.
  unfold init_map_reduce, contributions.
  generalize (mk_impl ∅ ∅). generalize (all_cpus E). intros l.
  induction l as [|cpu l IH]; intros r; [done|].
  rewrite bind_cons. unfold reduce_all. rewrite foldl_app. cbn [foldl].
  rewrite reducer_flatten. apply IH.
Qed.

Lemma reduce_step_min_pos (r : impl) s t p s' :
  _min_pos (reduce_step r s t p) !! s'
  = if decide (s = s')
    then Some (match _min_pos r !! s with
               | None => p
               | Some q => if rp_lt p q then p else q
               end)
    else _min_pos r !! s'.
Proof.
  unfold reduce_step. cbn. case_decide as Hs.
  - subst s'. destruct (_min_pos r !! s) as [q|] eqn:Hq.
    + destruct (rp_lt p q); [apply lookup_insert_eq | done].
    + apply lookup_insert_eq.
  - destruct (_min_pos r !! s) as [q|].
    + destruct (rp_lt p q); [by rewrite lookup_insert_ne | done].
    + by rewrite lookup_insert_ne.
Qed.

Lemma reduce_step_rpm (r : impl) s t p s' :
  _rpm (reduce_step r s t p) !! s'
  = if decide (s = s')
    then Some (<[t := rp_max (rpm_at (_rpm r) s t) p]> (default ∅ (_rpm r !! s)))
    else _rpm r !! s'.
Proof.
  unfold reduce_step, rpm_raise. cbn. case_decide as Hs.
  - subst s'. apply lookup_insert_eq.
  - by rewrite lookup_insert_ne.
Qed.

Lemma reduce_inv_empty : reduce_inv (mk_impl ∅ ∅) [].
Proof.
  split_and!; cbn.
  - intros s _ t p Hin. by apply elem_of_nil in Hin.
  - intros s m Hm. by rewrite lookup_empty in Hm.
  - intros s t p Hin. by apply elem_of_nil in Hin.
  - intros s mp t x Hs. by rewrite lookup_empty in Hs.
Qed.

Lemma reduce_inv_step (r : impl) l s t p :
  reduce_inv r l → reduce_inv (reduce_step r s t p) (l ++ [(s, t, p)]).
Proof.
  intros (M1 & M2 & R1 & R2). split_and!.
  - intros s' Hnone t' p' Hin. rewrite reduce_step_min_pos in Hnone.
    case_decide; [done|]. split_last Hin. by eapply M1.
  - intros s' m Hm. rewrite reduce_step_min_pos in Hm. case_decide as Hs.
    + subst s'. destruct (_min_pos r !! s) as [q|] eqn:Hq.
      * destruct (M2 s q Hq) as [[t0 Hatt] Hlow].
        destruct (rp_lt p q) eqn:Hlt; simplify_eq.
        -- split; [exists t; in_last|]. intros t' p' Hin. split_last Hin.
           ++ eapply rp_le_trans; [by apply rp_lt_le | by eapply Hlow].
           ++ apply rp_le_refl.
        -- split; [exists t0; in_prefix|]. intros t' p' Hin. split_last Hin.
           ++ by eapply Hlow.
           ++ by apply rp_not_lt_le.
      * simplify_eq. split; [exists t; in_last|]. intros t' p' Hin. split_last Hin.
        -- by destruct (M1 s Hq t' p').
        -- apply rp_le_refl.
    + destruct (M2 s' m Hm) as [[t0 Hatt] Hlow].
      split; [exists t0; in_prefix|]. intros t' p' Hin. split_last Hin.
      by eapply Hlow.
  - intros s' t' p' Hin. rewrite reduce_step_rpm. split_last Hin.
    + destruct (R1 _ _ _ Hin) as (mp & x & Hmp & Hx & Hle). case_decide as Hs.
      * subst s'. unfold rpm_at. rewrite Hmp. cbn [from_option id].
        destruct (decide (t = t')) as [->|Ht].
        -- eexists _, _. split; [done|]. rewrite lookup_insert_eq. split; [done|].
           rewrite Hx. cbn [from_option id]. eapply rp_le_trans; [done | apply rp_max_l].
        -- eexists _, x. split; [done|]. by rewrite lookup_insert_ne.
      * by exists mp, x.
    + rewrite decide_True by done. eexists _, _. split; [done|].
      rewrite lookup_insert_eq. split; [done|]. apply rp_max_r.
  - intros s' mp' t' x' Hmp' Hx'. rewrite reduce_step_rpm in Hmp'. case_decide as Hs.
    + subst s'. simplify_eq. destruct (decide (t = t')) as [->|Ht].
      * rewrite lookup_insert_eq in Hx'. simplify_eq.
        destruct (rp_max_cases (rpm_at (_rpm r) s t') p) as [-> | ->];
          [|exists p; split; [in_last | apply rp_le_refl]].
        unfold rpm_at. destruct (_rpm r !! s) as [mp|] eqn:Hmp; cbn [from_option id].
        -- destruct (mp !! t') as [x|] eqn:Hx; cbn [from_option id].
           ++ destruct (R2 _ _ _ _ Hmp Hx) as (p0 & Hin & Hle).
              exists p0. split; [in_prefix | done].
           ++ exists p. split; [in_last | apply rp_le_zero].
        -- rewrite lookup_empty. cbn [from_option id].
           exists p. split; [in_last | apply rp_le_zero].
      * rewrite lookup_insert_ne in Hx' by done.
        destruct (_rpm r !! s) as [mp|] eqn:Hmp; cbn [from_option id] in Hx';
          [|by rewrite lookup_empty in Hx'].
        destruct (R2 _ _ _ _ Hmp Hx') as (p0 & Hin & Hle).
        exists p0. split; [in_prefix | done].
    + destruct (R2 _ _ _ _ Hmp' Hx') as (p0 & Hin & Hle).
      exists p0. split; [in_prefix | done].
Qed.

Lemma reduce_all_inv (l : list (N * UUID * replay_position)) :
  reduce_inv (reduce_all (mk_impl ∅ ∅) l) l.
Proof.
  induction l as [|[[s t] p] l IH] using rev_ind; [apply reduce_inv_empty|].
  unfold reduce_all. rewrite foldl_snoc. by apply reduce_inv_step.
Qed.

(** C2 (as amended).  After the map-reduce of [init], and before the
    correction for missing tables, every shard [s] with at least one
    contribution has a global minimum, which is the minimum over all the
    contributions (shard, table, position) the cpus handed to the reducer.
    It is at most the position recorded for any table on [s], that position
    being the maximum over the contributions for the pair, and it is the
    minimum of those recorded positions when no pair received two different
    contributions. *)
Theorem init_global_min (E : environment) (s : N) :
  (∃ t p, (s, t, p) ∈ contributions E) →
  ∃ m, _min_pos (init_map_reduce E) !! s = Some m ∧ global_min_spec E s m.
Proof.
  intros (t0 & p0 & Hin0). unfold global_min_spec.
  rewrite init_map_reduce_contributions.
  destruct (reduce_all_inv (contributions E)) as (M1 & M2 & R1 & R2).
  destruct (_min_pos (reduce_all (mk_impl ∅ ∅) (contributions E)) !! s) as [m|] eqn:Hm;
    [|by destruct (M1 s Hm t0 p0)].
  destruct (M2 s m Hm) as [[tm Hatt] Hlow].
  exists m. split_and!; [done | by exists tm | done | |].
  - intros mp t x Hmp Hx.
    assert (∀ p, (s, t, p) ∈ contributions E → rp_le p x = true) as Hup.
    { intros p Hin. destruct (R1 _ _ _ Hin) as (mp' & x' & Hmp' & Hx' & Hle).
      by simplify_eq. }
    destruct (R2 _ _ _ _ Hmp Hx) as (p & Hin & Hle).
    split_and!; [|done|by exists p].
    eapply rp_le_trans; [by eapply Hlow | by apply Hup].
  - intros Huniq.
    destruct (R1 _ _ _ Hatt) as (mp & x & Hmp & Hx & Hle).
    destruct (R2 _ _ _ _ Hmp Hx) as (p & Hin & Hle').
    exists mp, tm, x. split_and!; [done..|].
    by rewrite (Huniq tm m p Hatt Hin).
Qed.

Lemma init_global_min_witness :
  ∃ m, _min_pos (init_map_reduce (Scenario.truncated_env false)) !! 0 = Some m
       ∧ global_min_spec (Scenario.truncated_env false) 0 m.
Proof.
  apply (init_global_min (Scenario.truncated_env false) 0).
  exists 100, (mk_rp 0 1 10). vm_compute. left.
Defined.

(** C2 as stated fails: table 100 was truncated at (1, 5) and later flushed
    by cpu 0 at (1, 10), both on shard 0.  The only position recorded for
    shard 0 is (1, 10), yet the shard's global minimum is (1, 5), which cpu 1
    contributed from the truncation record. *)
Lemma init_global_min_counterexample :
  let r := init_map_reduce (Scenario.truncated_env false) in
  _rpm r !! 0 = Some {[ 100 := mk_rp 0 1 10 ]}
  ∧ _min_pos r !! 0 = Some (mk_rp 0 1 5)
  ∧ rp_lt (mk_rp 0 1 5) (mk_rp 0 1 10) = true.
Proof. vm_compute. done. Qed.

(** * A fresh catalogue *)

Lemma mapper_cf_fresh (E : environment) (l : list (N * column_family)) :
  ∀ map : shard_rpm_map,
    (∀ kv, kv ∈ l → get_sstables kv.2 = [] ∧ get_truncated_position E kv.1 = []) →
    foldl (λ acc kv, mapper_cf E acc kv.1 kv.2) map l = map.
Proof.
  induction l as [|[uuid cf] l IH]; intros map Hall; [done|].
  cbn [foldl].
  assert (get_sstables cf = [] ∧ get_truncated_position E uuid = [])
    as [Hsst Htr] by (apply (Hall (uuid, cf)), elem_of_cons; by left).
  unfold mapper_cf at 2. cbn [fst snd]. rewrite Hsst, Htr. cbn [foldl].
  apply IH. intros kv Hin. apply Hall, elem_of_cons. by right.
Qed.

Lemma mapper_fresh (E : environment) (cpu : N) : fresh_catalogue E → mapper E cpu = ∅.
Proof.
  intros Hfresh. unfold mapper, for_each. apply mapper_cf_fresh.
  intros [uuid cf] Hin. apply elem_of_map_to_list in Hin. by eapply Hfresh.
Qed.

Lemma foldl_fixed {A B : Type} (f : A → B → A) (a : A) (l : list B) :
  (∀ b, f a b = a) → foldl f a l = a.
Proof. intros Hf. induction l as [|b l IH]; cbn [foldl]; [done|]. by rewrite Hf. Qed.

Lemma init_map_reduce_fresh (E : environment) :
  fresh_catalogue E → init_map_reduce E = mk_impl ∅ ∅.
Proof.
  intros Hfresh. unfold init_map_reduce.
  induction (all_cpus E) as [|cpu l IH] using rev_ind; [done|].
  rewrite foldl_snoc, IH, mapper_fresh by done.
  unfold reducer, for_each. by rewrite map_to_list_empty.
Qed.

Lemma init_fresh (E : environment) (cpu : N) :
  fresh_catalogue E → init E cpu = mk_impl ∅ ∅.
Proof.
  intros Hfresh. unfold init, init_finally.
  rewrite init_map_reduce_fresh by done. cbn [_rpm _min_pos]. f_equal.
  unfold for_each at 1. apply foldl_fixed.
  intros kv. unfold for_each. by rewrite map_to_list_empty.
Qed.

(** C10 (what the code does).  With a fresh catalogue no shard has an entry
    in [_min_pos], so [recover] of any segment file fails with
    [std::out_of_range] at [_min_pos.at] before anything is read. *)
Theorem recover_fresh_catalogue (E : environment) (cpu0 cpu : N) (w : world)
    (file : string) (rp : replay_position) :
  fresh_catalogue E →
  local_is_initialized w cpu = true →
  descriptor E file = Ok rp →
  recover E (init E cpu0) cpu w file = (Throw out_of_range, w).
Proof.
  intros Hfresh Hinit Hd. unfold recover.
  rewrite Hinit, Hd, init_fresh by done. cbn. by rewrite lookup_empty.
Qed.

Lemma recover_fresh_catalogue_witness :
  recover (Scenario.env Scenario.segment None)
    (init (Scenario.env Scenario.segment None) 0) 0 Scenario.fresh "segment"
  = (Throw out_of_range, Scenario.fresh).
Proof.
  apply (recover_fresh_catalogue (Scenario.env Scenario.segment None) 0 0
           Scenario.fresh "segment" (mk_rp 0 1 0)).
  - intros cpu uuid cf Hcf. cbn in Hcf.
    apply lookup_singleton_Some in Hcf as [_ <-]. split; reflexivity.
  - vm_compute. reflexivity.
  - reflexivity.
Defined.

(** The same segment replayed by a replayer whose shard 0 has the default
    position as its minimum and no table positions: all three entries are
    applied. *)
Example recover_with_default_minimum :
  (recover (Scenario.env Scenario.segment None)
     (mk_impl {[ 0 := ∅ ]} {[ 0 := replay_position0 ]}) 0 Scenario.fresh "segment").1
  = Ok (mk_stats 0 0 3 0).
Proof. vm_compute. reflexivity. Qed.

(** * Further properties: statistics *)

(** X1.  Adding statistics is commutative and associative, wrap-around at
    64 bits included, so the reduction over shards does not depend on the
    order in which shards finish. *)
Theorem stats_add_comm_assoc (a b c : stats) :
  stats_add a b = stats_add b a
  ∧ stats_add (stats_add a b) c = stats_add a (stats_add b c).
Proof.
  split.
  - unfold stats_add. f_equal; f_equal; apply N.add_comm.
  - unfold stats_add, u64. cbn.
    f_equal; by rewrite N.Div0.add_mod_idemp_l, N.Div0.add_mod_idemp_r, N.add_assoc.
Qed.

(** X2.  The sum of two statistics always fits the 64-bit counters, and
    adding the initial (all zero) statistics to counters that fit changes
    nothing. *)
Theorem stats_add_zero (s : stats) :
  stats_wf s →
  stats_add stats0 s = s ∧ stats_add s stats0 = s
  ∧ ∀ a b, stats_wf (stats_add a b).
Proof.
  intros (Hi & Hs & Ha & Hc). destruct s as [i k a c]. cbn in *.
  split_and!; [| |apply stats_add_wf].
  - unfold stats_add. cbn. by rewrite !u64_small.
  - unfold stats_add. cbn. rewrite !N.add_0_r. by rewrite !u64_small.
Qed.

Lemma stats_add_zero_witness :
  stats_add stats0 (mk_stats 1 2 3 40) = mk_stats 1 2 3 40
  ∧ stats_add (mk_stats 1 2 3 40) stats0 = mk_stats 1 2 3 40
  ∧ ∀ a b, stats_wf (stats_add a b).
Proof.
  apply (stats_add_zero (mk_stats 1 2 3 40)). by repeat split.
Defined.

(** * Further properties: the column mappings *)

Lemma local_cm_emplace w cpu v cm c v' :
  local_cm (emplace_cm w cpu v cm) c !! v'
  = if decide (c = cpu ∧ v' = v) then Some cm else local_cm w c !! v'.
Proof.
  unfold local_cm at 1, emplace_cm. cbn [column_mappings].
  destruct (decide (c = cpu)) as [->|Hc].
  - rewrite lookup_insert_eq. cbn [from_option id].
    destruct (decide (v' = v)) as [->|Hv].
    + rewrite lookup_insert_eq. by rewrite decide_True.
    + rewrite lookup_insert_ne by done. rewrite decide_False; [done|]. by intros [_ ?].
  - rewrite lookup_insert_ne by done. rewrite decide_False; [done|]. by intros [? _].
Qed.

Lemma cm_grows_refl w : cm_grows w w.
Proof. by intros c v cm. Qed.

Lemma cm_grows_trans w1 w2 w3 : cm_grows w1 w2 → cm_grows w2 w3 → cm_grows w1 w3.
Proof. intros H12 H23 c v cm H. by apply H23, H12. Qed.

Lemma cm_grows_emplace w cpu v cm :
  local_cm w cpu !! v = None → cm_grows w (emplace_cm w cpu v cm).
Proof.
  intros Hnone c v' cm' H. rewrite local_cm_emplace.
  case_decide as Hd; [|done]. destruct Hd as [-> ->]. congruence.
Qed.

Lemma source_mapping_grows w cpu cer cm w1 :
  source_mapping w cpu cer = Ok (cm, w1) →
  cm_grows w w1
  ∧ local_cm w1 cpu !! schema_version (mutation cer) = Some cm
  ∧ (local_cm w cpu !! schema_version (mutation cer) = None →
     get_column_mapping cer = Some cm).
Proof.
  unfold source_mapping.
  destruct (local_cm w cpu !! _) as [cm0|] eqn:Hfound.
  - intros [= <- <-]. split_and!; [apply cm_grows_refl | done | done].
  - destruct (get_column_mapping cer) as [cm0|]; [|done].
    intros [= <- <-]. split_and!; [by apply cm_grows_emplace | | done].
    rewrite local_cm_emplace. by rewrite decide_True.
Qed.

(** What a cross-shard call leaves behind: the call is recorded, and either
    the entry's mutation was applied on that shard and counted, or nothing
    was applied and the entry was counted invalid. *)
Lemma dispatch_shape E shard cer cm s w :
  ∃ w', cm_grows w w'
        ∧ invoked w' = invoked w ++ [(shard, cer)]
        ∧ reads w' = reads w
        ∧ ((dispatch E shard cer cm s w = (Ok tt, incr_invalid s, w')
            ∧ applied w' = applied w)
           ∨ (dispatch E shard cer cm s w = (Ok tt, incr_applied s, w')
              ∧ ∃ req, applied w' = applied w ++ [(shard, req)]
                       ∧ (req = apply_direct (mutation cer)
                          ∨ ∃ cm', req = apply_converted cm' (mutation cer)))).
Proof.
  assert (∀ w0 c a, cm_grows w0 (record_apply w0 c a)) as Happ by by intros ????.
  assert (cm_grows w (record_invoke w shard cer)) as Hinv by by intros ???.
  unfold dispatch, apply_on_shard.
  set (w0 := record_invoke w shard cer) in *.
  destruct (find_column_family _ _) as [cf|e].
  2:{ exists w0. split_and!; [done..|]. by left. }
  destruct (negb _).
  - destruct (local_cm w0 shard !! schema_version (mutation cer)) as [cm0|] eqn:Hf;
      cbn [from_option id]; destruct (cf_apply cf _) as [[]|e].
    + eexists. split_and!; revgoals.
      * right. split; [reflexivity|]. eexists. split; [reflexivity|].
        right. by eexists.
      * done.
      * done.
      * eapply cm_grows_trans; [exact Hinv | apply Happ].
    + exists w0. split_and!; [done..|]. by left.
    + eexists. split_and!; revgoals.
      * right. split; [reflexivity|]. eexists. split; [reflexivity|].
        right. by eexists.
      * done.
      * done.
      * eapply cm_grows_trans; [exact Hinv|].
        eapply cm_grows_trans; [by apply cm_grows_emplace | apply Happ].
    + eexists. split_and!; revgoals.
      * left. split; reflexivity.
      * done.
      * done.
      * eapply cm_grows_trans; [exact Hinv | by apply cm_grows_emplace].
  - destruct (cf_apply cf _) as [[]|e].
    + eexists. split_and!; revgoals.
      * right. split; [reflexivity|]. eexists. split; [reflexivity|]. by left.
      * done.
      * done.
      * eapply cm_grows_trans; [exact Hinv | apply Happ].
    + exists w0. split_and!; [done..|]. by left.
Qed.

(** The ways [process] can go for a buffer that deserialises. *)
Lemma process_shape E r cpu s w cer rp :
  (source_mapping w cpu cer = Throw runtime_error
   ∧ process E r cpu s w (Some cer) rp = (Ok tt, incr_invalid s, w))
  ∨ ∃ cm w1,
      source_mapping w cpu cer = Ok (cm, w1)
      ∧ (process E r cpu s w (Some cer) rp = (Ok tt, incr_invalid s, w1)
         ∨ process E r cpu s w (Some cer) rp = (Ok tt, incr_skipped s, w1)
         ∨ ∃ shard,
             shard_of (sharded_db E cpu) (mutation cer) = Ok shard
             ∧ process E r cpu s w (Some cer) rp = dispatch E shard cer cm s w1).
Proof.
  unfold process. cbn [commitlog_entry_reader].
  destruct (source_mapping w cpu cer) as [[cm w1]|e] eqn:Hsm.
  2:{ left. unfold source_mapping in Hsm.
      destruct (local_cm w cpu !! _); [done|].
      destruct (get_column_mapping cer); [done|]. by simplify_eq. }
  right. exists cm, w1. split; [done|].
  destruct (_min_pos r !! _) as [gp|]; [|by left].
  destruct (rp_lt rp gp); [by right; left|].
  destruct (_rpm r !! _) as [map|]; [|by left].
  destruct (already_flushed _ _ _); [by right; left|].
  right; right. by eexists.
Qed.

Lemma process_keeps_learned E r cpu s w cer rp cm w1 :
  source_mapping w cpu cer = Ok (cm, w1) →
  cm_grows w1 (process E r cpu s w (Some cer) rp).2.
Proof.
  intros Hsm.
  destruct (process_shape E r cpu s w cer rp) as [[Hthrow _] | (cm' & w1' & Hsm' & Hp)];
    [congruence|].
  rewrite Hsm in Hsm'. simplify_eq.
  destruct Hp as [-> | [-> | (shard & _ & ->)]]; try apply cm_grows_refl.
  destruct (dispatch_shape E shard cer cm' s w1') as (w' & Hg & _ & _ & [[-> _] | [-> _]]);
    done.
Qed.

Lemma process_grows E r cpu s w buf rp : cm_grows w (process E r cpu s w buf rp).2.
Proof.
  destruct buf as [cer|]; [|apply cm_grows_refl].
  destruct (source_mapping w cpu cer) as [[cm w1]|e] eqn:Hsm.
  - eapply cm_grows_trans; [by eapply source_mapping_grows|].
    by eapply process_keeps_learned.
  - unfold process. cbn [commitlog_entry_reader]. rewrite Hsm. apply cm_grows_refl.
Qed.

Lemma consume_grows E r cpu entries : ∀ s w,
  cm_grows w (consume E r cpu s w entries).2.
Proof.
  induction entries as [|[buf rp] rest IH]; intros s w; cbn [consume];
    [apply cm_grows_refl|].
  pose proof (process_grows E r cpu s w buf rp) as Hg.
  destruct (process E r cpu s w buf rp) as [[[[]|e] s1] w1]; cbn in Hg; [|done].
  eapply cm_grows_trans; [done | apply IH].
Qed.

Lemma recover_grows E r cpu w f : cm_grows w (recover E r cpu w f).2.
Proof.
  unfold recover.
  destruct (negb _); [apply cm_grows_refl|].
  destruct (descriptor E f) as [rp|]; [|apply cm_grows_refl].
  destruct (_min_pos r !! _) as [gp|]; [|apply cm_grows_refl].
  destruct (rp_id rp <? rp_id gp); [apply cm_grows_refl|].
  unfold recover_from.
  set (p := if rp_id rp =? rp_id gp then rp_pos gp else 0).
  pose proof (consume_grows E r cpu (sr_entries (read_log_file E f p)) stats0
                (record_read w f p)) as Hg.
  destruct (consume _ _ _ _ _ _) as [[[[]|e] s1] w1]; cbn in Hg.
  - destruct (sr_end _) as [[]|]; exact Hg.
  - destruct e; exact Hg.
Qed.

(** X3.  Column mappings are only ever added: whatever a shard's replay of
    a list of segment files does, and however it ends, a mapping cached on
    any cpu for a schema version before it is still cached, unchanged,
    after it. *)
Theorem replay_keeps_mappings (E : environment) (r : impl) (cpu : N) (files : list string) :
  ∀ total w, cm_grows w (recover_on_shard E r cpu total w files).2.
Proof.
  induction files as [|f rest IH]; intros total w; cbn [recover_on_shard];
    [apply cm_grows_refl|].
  pose proof (recover_grows E r cpu w f) as Hg.
  destruct (recover E r cpu w f) as [[st|e] w1]; cbn in Hg; [|done].
  eapply cm_grows_trans; [done | apply IH].
Qed.

(** X4.  An entry that carries its column mapping teaches it to the
    processing cpu even when the entry itself is skipped or fails later
    on: after [process] the entry's schema version is cached there (with the
    embedded mapping if the version was new), so a later entry of the same
    version needs no mapping of its own. *)
Theorem process_learns_mapping (E : environment) (r : impl) (cpu : N) (s : stats)
    (w : world) (cer : commitlog_entry) (rp : replay_position) :
  resolvable cpu w cer →
  ∃ cm,
    local_cm (process E r cpu s w (Some cer) rp).2 cpu !! schema_version (mutation cer)
    = Some cm
    ∧ (local_cm w cpu !! schema_version (mutation cer) = None →
       get_column_mapping cer = Some cm)
    ∧ ∀ cer', schema_version (mutation cer') = schema_version (mutation cer) →
              resolvable cpu (process E r cpu s w (Some cer) rp).2 cer'.
Proof.
  intros Hres.
  destruct (source_mapping_resolvable cpu w cer Hres) as (cm & w1 & Hsm & _).
  destruct (source_mapping_grows w cpu cer cm w1 Hsm) as (_ & Hcached & Hnew).
  pose proof (process_keeps_learned E r cpu s w cer rp cm w1 Hsm cpu _ _ Hcached) as Hk.
  exists cm. split_and!; [done..|].
  intros cer' Hv. left. rewrite Hv. by exists cm.
Qed.

Lemma process_learns_mapping_witness :
  ∃ cm,
    local_cm (process (Scenario.env [] None) Scenario.replayer 0 stats0 Scenario.fresh
                (Some (Scenario.mapped 100)) (mk_rp 0 1 10)).2 0
      !! schema_version (mutation (Scenario.mapped 100))
    = Some cm
    ∧ (local_cm Scenario.fresh 0 !! schema_version (mutation (Scenario.mapped 100)) = None →
       get_column_mapping (Scenario.mapped 100) = Some cm)
    ∧ ∀ cer', schema_version (mutation cer') = schema_version (mutation (Scenario.mapped 100)) →
              resolvable 0
                (process (Scenario.env [] None) Scenario.replayer 0 stats0 Scenario.fresh
                   (Some (Scenario.mapped 100)) (mk_rp 0 1 10)).2 cer'.
Proof.
  apply (process_learns_mapping (Scenario.env [] None) Scenario.replayer 0 stats0
           Scenario.fresh (Scenario.mapped 100) (mk_rp 0 1 10)).
  right. eexists. reflexivity.
Defined.


(** X6.  An entry whose shard the replayer knows nothing about is counted
    invalid (that counter goes up by one, modulo 2^64, the others stay) and
    is not applied: [_min_pos.at] and [_rpm.at] throw [std::out_of_range]
    inside the [try] block, which the catch-all handles. *)
Theorem process_unknown_shard (E : environment) (r : impl) (cpu : N) (s : stats)
    (w : world) (cer : commitlog_entry) (rp : replay_position) :
  resolvable cpu w cer →
  _min_pos r !! shard_id rp = None
  ∨ (∃ gp, _min_pos r !! shard_id rp = Some gp ∧ rp_lt rp gp = false
           ∧ _rpm r !! shard_id rp = None) →
  ∃ w1, process E r cpu s w (Some cer) rp
        = (Ok tt,
           mk_stats ((invalid_mutations s + 1) mod 2 ^ 64) (skipped_mutations s)
             (applied_mutations s) (corrupt_bytes s),
           w1)
        ∧ same_trace w w1.
Proof.
  intros Hres Hmiss.
  destruct (source_mapping_resolvable cpu w cer Hres) as (cm & w1 & Hsm & Htr).
  exists w1. split; [|done]. unfold process. cbn [commitlog_entry_reader].
  rewrite Hsm. destruct Hmiss as [-> | (gp & -> & -> & ->)]; done.
Qed.

Lemma process_unknown_shard_witness :
  ∃ w1, process (Scenario.env [] None) Scenario.replayer 0 (mk_stats 4 5 6 7)
          Scenario.fresh (Some (Scenario.mapped 100)) Variants.other_shard
        = (Ok tt, mk_stats 5 5 6 7, w1)
        ∧ same_trace Scenario.fresh w1.
Proof.
  apply (process_unknown_shard (Scenario.env [] None) Scenario.replayer 0
           (mk_stats 4 5 6 7) Scenario.fresh (Scenario.mapped 100)
           Variants.other_shard).
  - right. eexists. reflexivity.
  - left. vm_compute. reflexivity.
Defined.

(** X7.  An entry that passes both skip rules and is routed to its owning
    shard, where the table is gone or refuses the mutation, is counted
    invalid (that counter goes up by one, modulo 2^64, the others stay): the
    cross-shard call is made, nothing is applied, and [process] still
    returns normally. *)
Theorem process_apply_failure (E : environment) (r : impl) (cpu : N) (s : stats)
    (w : world) (cer : commitlog_entry) (rp gp : replay_position) (map : rp_map)
    (shard : N) :
  resolvable cpu w cer →
  _min_pos r !! shard_id rp = Some gp →
  rp_lt rp gp = false →
  _rpm r !! shard_id rp = Some map →
  already_flushed map (column_family_id (mutation cer)) rp = false →
  shard_of (sharded_db E cpu) (mutation cer) = Ok shard →
  match get_column_families (sharded_db E shard) !! column_family_id (mutation cer) with
  | Some cf => ∀ req, ∃ e, cf_apply cf req = Throw e
  | None => True
  end →
  ∃ w', process E r cpu s w (Some cer) rp
        = (Ok tt,
           mk_stats ((invalid_mutations s + 1) mod 2 ^ 64) (skipped_mutations s)
             (applied_mutations s) (corrupt_bytes s),
           w')
        ∧ applied w' = applied w
        ∧ invoked w' = invoked w ++ [(shard, cer)].
Proof.
  intros Hres Hgp Hge Hmap Hfine Hso Hfail.
  destruct (source_mapping_resolvable cpu w cer Hres) as (cm & w1 & Hsm & Ha & Hi & _).
  assert (process E r cpu s w (Some cer) rp = dispatch E shard cer cm s w1) as ->.
  { unfold process. cbn [commitlog_entry_reader].
    by rewrite Hsm, Hgp, Hge, Hmap, Hfine, Hso. }
  unfold dispatch, apply_on_shard, find_column_family.
  set (w0 := record_invoke w1 shard cer).
  destruct (get_column_families _ !! _) as [cf|].
  2:{ exists w0. split_and!; [done|..]; cbn; congruence. }
  destruct (negb _).
  - destruct (Hfail (apply_converted
                (default cm (local_cm w0 shard !! schema_version (mutation cer)))
                (mutation cer))) as [e He].
    rewrite He. destruct (local_cm w0 shard !! _); eexists;
      (split_and!; [reflexivity|..]); cbn; congruence.
  - destruct (Hfail (apply_direct (mutation cer))) as [e He]. rewrite He.
    exists w0. split_and!; [done|..]; cbn; congruence.
Qed.

Lemma process_apply_failure_witness :
  ∃ w', process Variants.refusing_env Scenario.replayer 0 (mk_stats 4 5 6 7)
          Scenario.fresh (Some (Scenario.mapped 100)) (mk_rp 0 1 70)
        = (Ok tt, mk_stats 5 5 6 7, w')
        ∧ applied w' = applied Scenario.fresh
        ∧ invoked w' = invoked Scenario.fresh ++ [(0, Scenario.mapped 100)].
Proof.
  apply (process_apply_failure Variants.refusing_env Scenario.replayer 0
           (mk_stats 4 5 6 7)
           Scenario.fresh (Scenario.mapped 100) (mk_rp 0 1 70) (mk_rp 0 1 50)
           {[ 100 := mk_rp 0 1 60 ]} 0).
  - right. eexists. reflexivity.
  - vm_compute. reflexivity.
  - vm_compute. reflexivity.
  - vm_compute. reflexivity.
  - vm_compute. reflexivity.
  - vm_compute. reflexivity.
  - vm_compute. intros req. eexists. reflexivity.
Defined.

(** X8.  An entry that passes both skip rules, whose table exists on the
    owning shard and accepts the mutation, is counted applied (that counter
    goes up by one, modulo 2^64, the others stay) and applied once on the
    owning shard, the one the partitioner gives for its key: as it is when
    the table's schema version is the entry's, and otherwise converted
    through the column mapping that the owning shard's cache holds for the
    entry's version once [process] is done. *)
Theorem process_applies (E : environment) (r : impl) (cpu : N) (s : stats)
    (w : world) (cer : commitlog_entry) (rp gp : replay_position) (map : rp_map)
    (cf : column_family) :
  resolvable cpu w cer →
  _min_pos r !! shard_id rp = Some gp →
  rp_lt rp gp = false →
  _rpm r !! shard_id rp = Some map →
  already_flushed map (column_family_id (mutation cer)) rp = false →
  get_column_families
    (sharded_db E (partitioner_shard (sharded_db E cpu) (fm_key (mutation cer))))
    !! column_family_id (mutation cer) = Some cf →
  (∀ req, cf_apply cf req = Ok tt) →
  ∃ w' req,
    process E r cpu s w (Some cer) rp
    = (Ok tt,
       mk_stats (invalid_mutations s) (skipped_mutations s)
         ((applied_mutations s + 1) mod 2 ^ 64) (corrupt_bytes s),
       w')
    ∧ applied w'
      = applied w
        ++ [(partitioner_shard (sharded_db E cpu) (fm_key (mutation cer)), req)]
    ∧ invoked w'
      = invoked w
        ++ [(partitioner_shard (sharded_db E cpu) (fm_key (mutation cer)), cer)]
    ∧ (cf_version cf = schema_version (mutation cer) →
       req = apply_direct (mutation cer))
    ∧ (cf_version cf ≠ schema_version (mutation cer) →
       ∃ cm, req = apply_converted cm (mutation cer)
             ∧ local_cm w' (partitioner_shard (sharded_db E cpu) (fm_key (mutation cer)))
                 !! schema_version (mutation cer) = Some cm).
Proof.
  intros Hres Hgp Hge Hmap Hfine Howner Hok.
  set (shard := partitioner_shard (sharded_db E cpu) (fm_key (mutation cer))) in *.
  destruct (source_mapping_resolvable cpu w cer Hres) as (cm & w1 & Hsm & Ha & Hi & _).
  assert (process E r cpu s w (Some cer) rp = dispatch E shard cer cm s w1) as ->.
  { unfold process, shard_of. cbn [commitlog_entry_reader].
    by rewrite Hsm, Hgp, Hge, Hmap, Hfine. }
  unfold dispatch, apply_on_shard, find_column_family. rewrite Howner.
  set (w0 := record_invoke w1 shard cer).
  destruct (N.eqb_spec (cf_version cf) (schema_version (mutation cer))) as [Hv|Hv];
    cbn [negb]; rewrite Hok.
  - eexists _, (apply_direct (mutation cer)).
    split_and!; [reflexivity | | | done | done];
      unfold w0; cbn [applied invoked record_apply record_invoke]; by rewrite ?Ha, ?Hi.
  - destruct (local_cm w0 shard !! schema_version (mutation cer)) as [cm0|] eqn:Hf;
      cbn [from_option id]; eexists _, (apply_converted _ (mutation cer));
      (split_and!; [reflexivity | | | done |]).
    + unfold w0. cbn [applied record_apply record_invoke]. by rewrite Ha.
    + unfold w0. cbn [invoked record_apply record_invoke]. by rewrite Hi.
    + intros _. eexists. split; [reflexivity|]. exact Hf.
    + unfold w0. cbn [applied record_apply record_invoke emplace_cm]. by rewrite Ha.
    + unfold w0. cbn [invoked record_apply record_invoke emplace_cm]. by rewrite Hi.
    + intros _. eexists. split; [reflexivity|].
      change (local_cm (emplace_cm w0 shard (schema_version (mutation cer)) cm) shard
                !! schema_version (mutation cer) = Some cm).
      rewrite local_cm_emplace. by rewrite decide_True.
Qed.

Lemma process_applies_witness :
  ∃ w' req,
    process Variants.evolved_env Scenario.replayer 0 (mk_stats 4 5 6 7) Scenario.fresh
      (Some (Scenario.mapped 100)) (mk_rp 0 1 70)
    = (Ok tt, mk_stats 4 5 7 7, w')
    ∧ applied w' = applied Scenario.fresh ++ [(0, req)]
    ∧ invoked w' = invoked Scenario.fresh ++ [(0, Scenario.mapped 100)]
    ∧ (8 = 7 → req = apply_direct (mutation (Scenario.mapped 100)))
    ∧ (8 ≠ 7 →
       ∃ cm, req = apply_converted cm (mutation (Scenario.mapped 100))
             ∧ local_cm w' 0 !! 7 = Some cm).
Proof.
  apply (process_applies Variants.evolved_env Scenario.replayer 0 (mk_stats 4 5 6 7)
           Scenario.fresh (Scenario.mapped 100) (mk_rp 0 1 70) (mk_rp 0 1 50)
           {[ 100 := mk_rp 0 1 60 ]} Variants.evolved_table).
  - right. eexists. reflexivity.
  - vm_compute. reflexivity.
  - vm_compute. reflexivity.
  - vm_compute. reflexivity.
  - vm_compute. reflexivity.
  - vm_compute. reflexivity.
  - intros req. reflexivity.
Defined.

Lemma process_step E r cpu s w buf rp :
  (process E r cpu s w buf rp).1.2 = s
  ∨ (process E r cpu s w buf rp).1.2 = incr_invalid s
  ∨ (process E r cpu s w buf rp).1.2 = incr_skipped s
  ∨ (process E r cpu s w buf rp).1.2 = incr_applied s.
Proof.
  destruct buf as [cer|]; [|by right; left].
  destruct (process_shape E r cpu s w cer rp) as [[_ ->] | (cm & w1 & _ & Hp)];
    [by right; left|].
  destruct Hp as [-> | [-> | (shard & _ & ->)]]; auto.
  destruct (dispatch_counts E shard cer cm s w1) as [-> | ->]; auto.
Qed.

(** X9.  Whatever the buffer and the state, [process] returns a ready
    future, leaves [corrupt_bytes] alone, reads no segment, and moves at
    most one of the three entry counters, by one. *)
Theorem process_contained (E : environment) (r : impl) (cpu : N) (s : stats)
    (w : world) (buf : temporary_buffer) (rp : replay_position) :
  (process E r cpu s w buf rp).1.1 = Ok tt
  ∧ corrupt_bytes (process E r cpu s w buf rp).1.2 = corrupt_bytes s
  ∧ reads (process E r cpu s w buf rp).2 = reads w
  ∧ ((process E r cpu s w buf rp).1.2 = s
     ∨ (process E r cpu s w buf rp).1.2 = incr_invalid s
     ∨ (process E r cpu s w buf rp).1.2 = incr_skipped s
     ∨ (process E r cpu s w buf rp).1.2 = incr_applied s).
Proof.
  split_and!; [apply process_ready | apply process_corrupt | apply process_reads |].
  apply process_step.
Qed.

(** * Further properties: segments *)



(** X11.  Replaying a list of files on a shard is replaying its first part
    and then, if that succeeded, the rest from the totals and the state
    reached; a failure in the first part is the failure of the whole, and
    the rest is not touched. *)
Theorem recover_on_shard_app (E : environment) (r : impl) (cpu : N)
    (files1 files2 : list string) :
  ∀ total w,
    recover_on_shard E r cpu total w (files1 ++ files2)
    = match recover_on_shard E r cpu total w files1 with
      | (Ok total1, w1) => recover_on_shard E r cpu total1 w1 files2
      | (Throw e, w1) => (Throw e, w1)
      end.
Proof.
  induction files1 as [|f rest IH]; intros total w; cbn [recover_on_shard app]; [done|].
  destruct (recover E r cpu w f) as [[st|e] w1]; [apply IH | done].
Qed.

Lemma recover_reads_own_file E r cpu w f :
  reads (recover E r cpu w f).2 = reads w
  ∨ ∃ p, reads (recover E r cpu w f).2 = reads w ++ [(f, p)].
Proof.
  unfold recover.
  destruct (negb _); [by left|].
  destruct (descriptor E f) as [rp|]; [|by left].
  destruct (_min_pos r !! _) as [gp|]; [|by left].
  destruct (rp_id rp <? rp_id gp); [by left|].
  right. eexists. apply recover_from_reads.
Qed.

(** X12.  A shard reads its segments in the order the files were given,
    each at most once per mention, and reads nothing else, however the
    replay ends: the files read, in order, are a sublist of the files
    given. *)
Theorem recover_on_shard_reads_in_order (E : environment) (r : impl) (cpu : N)
    (files : list string) :
  ∀ total w,
    ∃ rs, reads (recover_on_shard E r cpu total w files).2 = reads w ++ rs
          ∧ rs.*1 `sublist_of` files.
Proof.
  induction files as [|f rest IH]; intros total w; cbn [recover_on_shard].
  - exists []. by rewrite app_nil_r.
  - pose proof (recover_reads_own_file E r cpu w f) as Hown.
    destruct (recover E r cpu w f) as [[st|e] w1]; cbn in Hown.
    + destruct (IH (stats_add total st) w1) as (rs & -> & Hsub).
      destruct Hown as [-> | [p ->]].
      * exists rs. split; [done|]. by apply sublist_cons.
      * exists ((f, p) :: rs). split; [by rewrite <- app_assoc|].
        cbn. by apply sublist_skip.
    + cbn [snd]. destruct Hown as [-> | [p ->]].
      * exists []. rewrite app_nil_r. split; [done|]. apply sublist_nil_l.
      * exists [(f, p)]. split; [done|]. cbn. apply sublist_skip, sublist_nil_l.
Qed.

(** * Further properties: [init] *)

Lemma reduce_all_same_shards (l : list (N * UUID * replay_position)) : ∀ r,
  (∀ s, is_Some (_min_pos r !! s) ↔ is_Some (_rpm r !! s)) →
  ∀ s, is_Some (_min_pos (reduce_all r l) !! s) ↔ is_Some (_rpm (reduce_all r l) !! s).
Proof.
  induction l as [|[[s0 t0] p0] l IH]; intros r Hr; [done|].
  unfold reduce_all. cbn [foldl]. apply IH. intros s.
  rewrite reduce_step_min_pos, reduce_step_rpm. case_decide; [|apply Hr].
  split; intros _; by eexists.
Qed.

Lemma reset_if_missing_lookup uuid (l : list (N * rp_map)) : ∀ (mp : shard_rp_map) s,
  (foldl (λ acc kv, reset_if_missing uuid acc kv.1 kv.2) mp l !! s
   = Some replay_position0 ∧ ∃ m, (s, m) ∈ l ∧ m !! uuid = None)
  ∨ foldl (λ acc kv, reset_if_missing uuid acc kv.1 kv.2) mp l !! s = mp !! s.
Proof.
  induction l as [|[s' m'] l IH]; intros mp s; cbn [foldl fst snd]; [by right|].
  destruct (IH (reset_if_missing uuid mp s' m') s) as [[-> (m & Hin & Hm)] | ->].
  - left. split; [done|]. exists m. split; [|done]. apply elem_of_cons. by right.
  - unfold reset_if_missing. cbn [fst snd].
    destruct (m' !! uuid) eqn:Hm'; [by right|].
    destruct (decide (s' = s)) as [->|Hs].
    + left. rewrite lookup_insert_eq. split; [done|]. exists m'.
      split; [|done]. apply elem_of_cons. by left.
    + right. by rewrite lookup_insert_ne.
Qed.

Lemma init_finally_lookup (rpm : shard_rpm_map) (lc : list (UUID * column_family)) :
  ∀ (mp : shard_rp_map) s,
    (foldl (λ acc kv, for_each rpm (reset_if_missing kv.1) acc) mp lc !! s
     = Some replay_position0
     ∧ ∃ uuid cf m, (uuid, cf) ∈ lc ∧ rpm !! s = Some m ∧ m !! uuid = None)
    ∨ foldl (λ acc kv, for_each rpm (reset_if_missing kv.1) acc) mp lc !! s = mp !! s.
Proof.
  induction lc as [|[u c] lc IH]; intros mp s; cbn [foldl]; [by right|].
  destruct (IH (for_each rpm (reset_if_missing (u, c).1) mp) s)
    as [[-> (uuid & cf & m & Hin & Hm & Hu)] | ->].
  - left. split; [done|]. exists uuid, cf, m. split_and!; [|done..].
    apply elem_of_cons. by right.
  - unfold for_each. cbn [fst].
    destruct (reset_if_missing_lookup u (map_to_list rpm) mp s)
      as [[-> (m & Hin & Hm)] | ->]; [|by right].
    left. split; [done|]. exists u, c, m. split_and!; [|by apply elem_of_map_to_list|done].
    apply elem_of_cons. by left.
Qed.

(** What the correction does to one shard: its minimum becomes the default
    position because a table of the catalogue has no position there, or it
    is left as the map-reduce computed it. *)
Lemma init_min_pos_cases (E : environment) (cpu s : N) :
  (_min_pos (init E cpu) !! s = Some replay_position0
   ∧ ∃ uuid m, is_Some (get_column_families (sharded_db E cpu) !! uuid)
               ∧ _rpm (init_map_reduce E) !! s = Some m ∧ m !! uuid = None)
  ∨ _min_pos (init E cpu) !! s = _min_pos (init_map_reduce E) !! s.
Proof.
  unfold init, init_finally. cbn [_min_pos]. unfold for_each at 1.
  destruct (init_finally_lookup (_rpm (init_map_reduce E))
              (map_to_list (get_column_families (sharded_db E cpu)))
              (_min_pos (init_map_reduce E)) s)
    as [[H (uuid & cf & m & Hin & Hm & Hu)] | H]; [|by right].
  left. split; [exact H|]. exists uuid, m. split_and!; [|done..].
  exists cf. by apply elem_of_map_to_list.
Qed.

Lemma init_map_reduce_shards (E : environment) (s : N) :
  (is_Some (_min_pos (init_map_reduce E) !! s) ↔ ∃ t p, (s, t, p) ∈ contributions E)
  ∧ (is_Some (_rpm (init_map_reduce E) !! s) ↔ ∃ t p, (s, t, p) ∈ contributions E).
Proof.
  assert (is_Some (_min_pos (init_map_reduce E) !! s)
          ↔ ∃ t p, (s, t, p) ∈ contributions E) as Hmin.
  { rewrite init_map_reduce_contributions.
    destruct (reduce_all_inv (contributions E)) as (M1 & M2 & _ & _).
    split.
    - intros [m Hm]. destruct (M2 s m Hm) as [[t Hatt] _]. by exists t, m.
    - intros (t & p & Hin).
      destruct (_min_pos (reduce_all _ _) !! s) as [m|] eqn:Hm; [by eexists|].
      by destruct (M1 s Hm t p). }
  split; [done|]. rewrite <- Hmin. symmetry.
  rewrite init_map_reduce_contributions. apply reduce_all_same_shards.
  intros s'. cbn. rewrite !lookup_empty. split; by intros [? ?].
Qed.

(** X13.  After [init] the shards that have a global minimum and the shards
    that have table positions are the same ones, namely those for which
    some cpu contributed a position; so [process] finds a shard in [_rpm]
    whenever it found it in [_min_pos]. *)
Theorem init_shards (E : environment) (cpu s : N) :
  (is_Some (_min_pos (init E cpu) !! s) ↔ ∃ t p, (s, t, p) ∈ contributions E)
  ∧ (is_Some (_rpm (init E cpu) !! s) ↔ ∃ t p, (s, t, p) ∈ contributions E).
Proof.
  destruct (init_map_reduce_shards E s) as [Hmin Hrpm].
  split; [|exact Hrpm]. rewrite <- Hmin.
  destruct (init_min_pos_cases E cpu s) as [[H (uuid & m & _ & Hm & _)] | H].
  - rewrite H. split; intros _; [|by eexists].
    apply Hmin, Hrpm. by eexists.
  - by rewrite H.
Qed.

(** X14.  After [init], the global minimum of a shard is at or below the
    position recorded for every table on that shard, so an entry the coarse
    rule skips would also be skipped by the fine rule for whichever recorded
    table it belongs to. *)
Theorem init_min_below_table_max (E : environment) (cpu s : N) (mp : rp_map)
    (t : UUID) (x : replay_position) :
  _rpm (init E cpu) !! s = Some mp →
  mp !! t = Some x →
  ∃ m, _min_pos (init E cpu) !! s = Some m ∧ rp_le m x = true.
Proof.
  intros Hmp Hx. change (_rpm (init E cpu)) with (_rpm (init_map_reduce E)) in Hmp.
  destruct (init_min_pos_cases E cpu s) as [[-> _] | ->].
  { eexists. split; [done|]. apply rp_le_zero. }
  revert Hmp. rewrite init_map_reduce_contributions. intros Hmp.
  destruct (reduce_all_inv (contributions E)) as (M1 & M2 & R1 & R2).
  destruct (R2 _ _ _ _ Hmp Hx) as (p & Hin & _).
  destruct (R1 _ _ _ Hin) as (mp' & x' & Hmp' & Hx' & Hle). simplify_eq.
  destruct (_min_pos (reduce_all _ _) !! s) as [m|] eqn:Hm;
    [|by destruct (M1 s Hm t p)].
  exists m. split; [done|]. destruct (M2 s m Hm) as [_ Hlow].
  eapply rp_le_trans; [by eapply Hlow | done].
Qed.

Lemma init_min_below_table_max_witness :
  ∃ m, _min_pos (init (Scenario.truncated_env false) 0) !! 0 = Some m
       ∧ rp_le m (mk_rp 0 1 10) = true.
Proof.
  apply (init_min_below_table_max (Scenario.truncated_env false) 0 0
           {[ 100 := mk_rp 0 1 10 ]} 100 (mk_rp 0 1 10)).
  - vm_compute. reflexivity.
  - vm_compute. reflexivity.
Defined.

(** X15.  The correction for missing tables leaves alone every shard on
    which all tables of the catalogue have a recorded position: its global
    minimum stays the one the map-reduce computed. *)
Theorem init_keeps_complete_shard (E : environment) (cpu s : N) :
  (∀ uuid m,
     is_Some (get_column_families (sharded_db E cpu) !! uuid) →
     _rpm (init E cpu) !! s = Some m → is_Some (m !! uuid)) →
  _min_pos (init E cpu) !! s = _min_pos (init_map_reduce E) !! s.
Proof.
  intros Hall.
  destruct (init_min_pos_cases E cpu s) as [[_ (uuid & m & Hcat & Hm & Hnone)] | H];
    [|done].
  destruct (Hall uuid m Hcat Hm) as [x Hx]. congruence.
Qed.

Lemma init_keeps_complete_shard_witness :
  _min_pos (init (Scenario.truncated_env false) 0) !! 0
  = _min_pos (init_map_reduce (Scenario.truncated_env false)) !! 0.
Proof.
  apply (init_keeps_complete_shard (Scenario.truncated_env false) 0 0).
  intros uuid m [cf Hcf] Hm. cbn in Hcf.
  apply lookup_singleton_Some in Hcf as [<- _].
  vm_compute in Hm. injection Hm as <-. eexists. vm_compute. reflexivity.
Defined.

(** The mapper as the sequence of its updates. *)
Lemma mapper_sstables_raise uuid (ssts : list sstable) : ∀ map : shard_rpm_map,
  foldl (mapper_sstable uuid) map ssts
  = raise_all map ((λ p, (shard_id p, uuid, p)) <$> omap sst_position ssts).
Proof.
  induction ssts as [|sst ssts IH]; intros map; [done|].
  cbn [foldl omap list_omap]. rewrite IH. unfold mapper_sstable.
  destruct (sst_position sst); done.
Qed.

Lemma mapper_cf_raise E map uuid cf :
  mapper_cf E map uuid cf
  = raise_all map ((λ p, (shard_id p, uuid, p)) <$> cf_positions E uuid cf).
Proof.
  unfold mapper_cf, cf_positions, raise_all.
  rewrite fmap_app, foldl_app, mapper_sstables_raise. unfold raise_all.
  by rewrite !foldl_fmap.
Qed.

Lemma mapper_cfs_raise (E : environment) (l : list (N * column_family)) :
  ∀ map : shard_rpm_map,
    foldl (λ acc kv, mapper_cf E acc kv.1 kv.2) map l
    = raise_all map
        (l ≫= λ kv, (λ p, (shard_id p, kv.1, p)) <$> cf_positions E kv.1 kv.2).
Proof.
  induction l as [|[uuid cf] l IH]; intros map; [done|].
  cbn [foldl fst snd]. rewrite IH, mapper_cf_raise, bind_cons.
  unfold raise_all. by rewrite foldl_app.
Qed.

Lemma mapper_raise_all (E : environment) (cpu : N) :
  mapper E cpu = raise_all ∅ (raises E cpu).
Proof. unfold mapper, raises, for_each. apply mapper_cfs_raise. Qed.

Lemma reduce_all_rpm (l : list (N * UUID * replay_position)) : ∀ r,
  _rpm (reduce_all r l) = raise_all (_rpm r) l.
Proof.
  induction l as [|c l IH]; intros r; [done|].
  unfold reduce_all, raise_all. cbn [foldl]. apply IH.
Qed.

Lemma elem_of_raises (E : environment) (cpu s : N) (t : UUID) (p : replay_position) :
  (s, t, p) ∈ raises E cpu ↔ cpu_position E cpu s t p.
Proof.
  unfold raises, cpu_position, cf_positions. rewrite list_elem_of_bind. split.
  - intros ([uuid cf] & Hin & Hcat). apply elem_of_map_to_list in Hcat.
    apply list_elem_of_fmap in Hin as (q & [= -> -> ->] & Hq). cbn [fst snd] in *.
    split; [done|]. exists cf. split; [done|].
    apply elem_of_app in Hq as [Hq | Hq]; [left | by right].
    by apply list_elem_of_omap in Hq.
  - intros (<- & cf & Hcat & Hpos). exists (t, cf).
    split; [|by apply elem_of_map_to_list].
    apply list_elem_of_fmap. exists p. split; [done|]. cbn [fst snd].
    apply elem_of_app. destruct Hpos as [Hsst | Htr]; [left | by right].
    by apply list_elem_of_omap.
Qed.

(** X16.  What one cpu reports to the reducer: under (shard, table) it
    records the greatest of the positions it holds for the table that were
    written by that shard, the flush positions of its files whose metadata
    can be read and the table's truncation records, and it records nothing
    for a pair without such a position. *)
Theorem mapper_records_maximum (E : environment) (cpu : N) :
  (∀ s t p, cpu_position E cpu s t p →
     ∃ mp x, mapper E cpu !! s = Some mp ∧ mp !! t = Some x ∧ rp_le p x = true)
  ∧ (∀ s mp t x, mapper E cpu !! s = Some mp → mp !! t = Some x →
       ∃ p, cpu_position E cpu s t p ∧ rp_le x p = true).
Proof.
  destruct (reduce_all_inv (raises E cpu)) as (_ & _ & R1 & R2).
  rewrite reduce_all_rpm in R1, R2. cbn [_rpm] in R1, R2.
  rewrite <- mapper_raise_all in R1, R2. split.
  - intros s t p Hpos. apply R1. by apply elem_of_raises.
  - intros s mp t x Hmp Hx. destruct (R2 s mp t x Hmp Hx) as (p & Hin & Hle).
    exists p. split; [by apply elem_of_raises | done].
Qed.

(** X17.  After [init], replaying a segment written by a shard for which no
    cpu holds any position (no file of any table and no truncation record
    carries that shard) fails with [std::out_of_range] before anything is
    read, whatever the other shards have on disk. *)
Theorem recover_unrecorded_shard (E : environment) (cpu0 cpu : N) (w : world)
    (file : string) (rp : replay_position) :
  local_is_initialized w cpu = true →
  descriptor E file = Ok rp →
  (∀ t p, (shard_id rp, t, p) ∉ contributions E) →
  recover E (init E cpu0) cpu w file = (Throw out_of_range, w).
Proof.
  intros Hinit Hd Hnone. unfold recover. rewrite Hinit, Hd. cbn [negb].
  destruct (_min_pos (init E cpu0) !! shard_id rp) as [gp|] eqn:Hgp; [|done].
  destruct (init_map_reduce_shards E (shard_id rp)) as [Hmin Hrpm].
  assert (∃ t p, (shard_id rp, t, p) ∈ contributions E) as (t & p & Hin).
  { destruct (init_min_pos_cases E cpu0 (shard_id rp))
      as [[_ (uuid & m & _ & Hm & _)] | H].
    - apply Hrpm. by eexists.
    - apply Hmin. rewrite <- H. by eexists. }
  by destruct (Hnone t p).
Qed.

Lemma recover_unrecorded_shard_witness :
  recover Variants.grown_env (init Variants.grown_env 0) 0
    (start Variants.grown_env (mk_world ∅ [] [] [])) "segment"
  = (Throw out_of_range, start Variants.grown_env (mk_world ∅ [] [] [])).
Proof.
  apply (recover_unrecorded_shard Variants.grown_env 0 0
           (start Variants.grown_env (mk_world ∅ [] [] [])) "segment" (mk_rp 1 1 0)).
  - vm_compute. reflexivity.
  - reflexivity.
  - intros t p Hin. vm_compute in Hin.
    repeat (apply elem_of_cons in Hin as [Hin | Hin]; [discriminate|]).
    by apply elem_of_nil in Hin.
Defined.

(** * Further properties: the entry point *)

(** X18.  When every file name parses and there is at least one cpu, the
    multimap holds every file as many times as it was given, under the
    shard of its name modulo the number of cpus and under no other key, and
    holds nothing else; every key is the id of a cpu that exists. *)
Theorem assign_files_keys (E : environment) (files : list string) :
  smp_count E ≠ 0%nat →
  (∀ f, f ∈ files → ∃ p, descriptor E f = Ok p) →
  ∃ map, assign_files E files = Ok map
         ∧ (∀ k f p, descriptor E f = Ok p →
              multiplicity (k, f) map
              = if decide (k = shard_id p mod N.of_nat (smp_count E))
                then length (filter (λ g, g = f) files)
                else 0%nat)
         ∧ (∀ k f, (k, f) ∈ map → f ∈ files ∧ k < N.of_nat (smp_count E)).
Proof.
  intros Hsmp. induction files as [|f rest IH]; intros Hparse; cbn [assign_files].
  - exists ∅. split_and!; [done | |].
    + intros k f p _. rewrite multiplicity_empty. by case_decide.
    + intros k f Hin. by apply gmultiset_elem_of_empty in Hin.
  - destruct (Hparse f) as [p Hp]; [apply elem_of_cons; by left|]. rewrite Hp.
    destruct IH as (map & -> & Hmult & Hkeys).
    { intros g Hg. apply Hparse, elem_of_cons. by right. }
    eexists. split_and!; [done | |].
    + intros k g q Hq. rewrite multiplicity_disj_union, multiplicity_singleton.
      rewrite (Hmult k g q Hq), filter_cons.
      destruct (decide (f = g)) as [->|Hfg].
      * rewrite Hp in Hq. simplify_eq. repeat case_decide; simplify_eq; cbn; lia.
      * repeat case_decide; simplify_eq; cbn; lia.
    + intros k g Hin. apply gmultiset_elem_of_disj_union in Hin as [Hin | Hin].
      * apply gmultiset_elem_of_singleton in Hin. simplify_eq.
        split; [apply elem_of_cons; by left | apply N.mod_lt; lia].
      * destruct (Hkeys k g Hin) as [Hg Hk]. split; [apply elem_of_cons; by right | done].
Qed.

Lemma assign_files_keys_witness :
  ∃ map, assign_files Variants.named_env ["3"; "1"; "3"]%string = Ok map
         ∧ (∀ k f p, descriptor Variants.named_env f = Ok p →
              multiplicity (k, f) map
              = if decide (k = shard_id p mod N.of_nat (smp_count Variants.named_env))
                then length (filter (λ g, g = f) ["3"; "1"; "3"]%string)
                else 0%nat)
         ∧ (∀ k f, (k, f) ∈ map →
              f ∈ ["3"; "1"; "3"]%string ∧ k < N.of_nat (smp_count Variants.named_env)).
Proof.
  apply (assign_files_keys Variants.named_env ["3"; "1"; "3"]%string).
  - discriminate.
  - intros f Hin.
    repeat (apply elem_of_cons in Hin as [-> | Hin]; [eexists; reflexivity|]).
    by apply elem_of_nil in Hin.
Defined.

Lemma assign_files_bad_name (E : environment) (good rest : list string) (f : string)
    (e : exception) :
  (∀ g, g ∈ good → ∃ p, descriptor E g = Ok p) →
  descriptor E f = Throw e →
  assign_files E (good ++ f :: rest) = Throw e.
Proof.
  intros Hgood Hbad. induction good as [|g good IH]; cbn [assign_files app].
  - by rewrite Hbad.
  - destruct (Hgood g) as [p ->]; [apply elem_of_cons; by left|].
    rewrite IH; [done|]. intros g' Hg'. apply Hgood, elem_of_cons. by right.
Qed.

(** X19.  One file name that does not parse fails the whole replay with the
    error of the first such name, before the column mappings are started
    and before any segment is read or any mutation applied: the state is
    left as it was, whatever the other files are and however the shards
    would have run. *)
Theorem recover_files_bad_name
    (run : gmultiset (N * string) → world → result stats * world)
    (E : environment) (w : world) (good rest : list string) (f : string)
    (e : exception) :
  (∀ g, g ∈ good → ∃ p, descriptor E g = Ok p) →
  descriptor E f = Throw e →
  recover_files run E w (good ++ f :: rest) = (Throw e, w).
Proof.
  intros Hgood Hbad. unfold recover_files.
  by rewrite (assign_files_bad_name E good rest f e Hgood Hbad).
Qed.

Lemma recover_files_bad_name_witness :
  recover_files (Variants.run_in_turn Variants.named_env Scenario.replayer)
    Variants.named_env (mk_world ∅ [] [] []) (["0"%string] ++ "segment"%string :: ["1"%string])
  = (Throw invalid_segment_name, mk_world ∅ [] [] []).
Proof.
  apply (recover_files_bad_name
           (Variants.run_in_turn Variants.named_env Scenario.replayer)
           Variants.named_env (mk_world ∅ [] [] []) ["0"%string] ["1"%string]
           "segment" invalid_segment_name).
  - intros g Hg. apply list_elem_of_singleton in Hg as ->. eexists. reflexivity.
  - reflexivity.
Defined.
